(** * DockerCleanUpBot: a shallow embedding of [DockerCleanUpBot.py]

    The script logs into Azure and into a container registry, lists the
    repositories, lists the manifests of every repository, collects the
    images that are 90 days old or more, and (unless [--dry-run] is given)
    deletes them one by one.

    Layout of the development:
    - [PyStr]    : the [str] methods the script calls ([split], [replace],
                   slices), on lists of characters;
    - [Json]     : JSON values, their texts, and the dictionary access the
                   script performs on a parsed manifest;
    - [Pandas]   : timestamps, [tz_localize(None)], [Timedelta.days];
    - [Bot]      : [main] itself, in a state-and-exception monad over an
                   abstract outside world (the [az] command line, the
                   clock, the library parsers);
    - [Ref]      : one outside world that computes: a machine that answers
                   from a queue, a JSON parser, a timestamp parser;
    - the vocabulary of the properties and some concrete registries;
    - the proofs: a small Hoare logic for the monad, then one part per
      property (the counters, the retention decision, the repository
      enumerator, fail fast, dry runs, live runs, the manifest collector);
    - the theorems applied to the concrete registries. *)

From Stdlib Require Import String Ascii List ZArith Lia Bool Arith.
Import ListNotations.

Set Implicit Arguments.
Set Warnings "-register-all".

(* ===================================================================== *)
(** ** Python strings *)
(* ===================================================================== *)

Module PyStr.

(** A Python [str] is a sequence of code points.  Characters are modelled
    as [ascii] (one byte each): every separator the script uses is an ASCII
    character, and no byte of a multi-byte UTF-8 sequence is ASCII, so
    splitting and filtering bytes agrees with splitting and filtering code
    points. *)
Definition str := list ascii.

(** String literals of the script. *)
Definition lit (s : string) : str := list_ascii_of_string s.

Definition newline : ascii := "010"%char.
Definition space : ascii := " "%char.

Fixpoint str_eqb (a b : str) : bool :=
  match a, b with
  | [], [] => true
  | x :: a', y :: b' => Ascii.eqb x y && str_eqb a' b'
  | _, _ => false
  end.

(** [s.startswith(p)], returning what follows the prefix. *)
Fixpoint strip_prefix (p s : str) : option str :=
  match p, s with
  | [], _ => Some s
  | a :: p', b :: s' => if Ascii.eqb a b then strip_prefix p' s' else None
  | _ :: _, [] => None
  end.

(** [s.partition(sep)]: the text before and after the first occurrence of
    [sep], or [None] when [sep] does not occur. *)
Fixpoint partition (sep s : str) : option (str * str) :=
  match strip_prefix sep s with
  | Some rest => Some ([], rest)
  | None =>
      match s with
      | [] => None
      | c :: s' =>
          match partition sep s' with
          | Some (before, after) => Some (c :: before, after)
          | None => None
          end
      end
  end.

(** [sub in s]. *)
Definition contains (sub s : str) : bool :=
  match partition sub s with Some _ => true | None => false end.

(** [s.split(sep)] for a non-empty separator: cut at the occurrences of
    [sep], found from left to right without overlap.  Every cut consumes at
    least one character, so [length s] rounds are enough (see
    [split_fuel_enough]).  Python raises [ValueError] on an empty separator;
    the script only passes the constants ["\n"] and ["},"]. *)
Fixpoint split_fuel (n : nat) (sep s : str) : list str :=
  match n with
  | O => [s]
  | S n' =>
      match partition sep s with
      | None => [s]
      | Some (before, after) => before :: split_fuel n' sep after
      end
  end.

Definition split (sep s : str) : list str := split_fuel (length s) sep s.

(** [sep.join(pieces)]. *)
Fixpoint join (sep : str) (pieces : list str) : str :=
  match pieces with
  | [] => []
  | [p] => p
  | p :: rest => p ++ sep ++ join sep rest
  end.

(** [s.replace(old, new)] for a non-empty [old]: the pieces between the
    occurrences of [old], glued with [new]. *)
Definition replace (old new s : str) : str := join new (split old s).

(** The slice [s[1:-1]]. *)
Definition slice_1_m1 (s : str) : str := removelast (tl s).

(** The slice [l[:-1]] of a list. *)
Definition slice_to_m1 {A} (l : list A) : list A := removelast l.

End PyStr.
Import PyStr.

(* ===================================================================== *)
(** ** JSON values *)
(* ===================================================================== *)

Module Json.

(** What [json.loads] returns.  A number keeps the text of its literal
    (the script never computes with one); an object keeps its members in
    the order of the text. *)
Inductive json : Type :=
| JNull
| JBool (b : bool)
| JNum (literal : str)
| JStr (s : str)
| JArr (items : list json)
| JObj (members : list (str * json)).

(** Lookup in the [dict] built from an object: of two members with the
    same key the later one wins. *)
Fixpoint dict_get (key : str) (members : list (str * json)) : option json :=
  match members with
  | [] => None
  | (k, v) :: rest =>
      match dict_get key rest with
      | Some v' => Some v'
      | None => if str_eqb k key then Some v else None
      end
  end.

(** *** JSON texts

    [dumps] is the compact text of a value ([json.dumps] with separators
    [","] and [":"]); [pretty] is the layout the [az] command line prints
    ([json.dumps] with [indent=2], separators [","] and [": "], non-ASCII
    characters left as they are). *)

Definition quote : ascii := ascii_of_nat 34.
Definition backslash : ascii := ascii_of_nat 92.

Definition hex_digit (n : nat) : ascii :=
  nth n (lit "0123456789abcdef") "0"%char.

(** One character inside a string literal. *)
Definition escape_char (c : ascii) : str :=
  let n := nat_of_ascii c in
  if n =? 34 then [backslash; quote]
  else if n =? 92 then [backslash; backslash]
  else if n =? 8 then [backslash; "b"%char]
  else if n =? 12 then [backslash; "f"%char]
  else if n =? 10 then [backslash; "n"%char]
  else if n =? 13 then [backslash; "r"%char]
  else if n =? 9 then [backslash; "t"%char]
  else if n <? 32 then
    [backslash; "u"%char; "0"%char; "0"%char;
     hex_digit (n / 16); hex_digit (n mod 16)]
  else [c].

Definition dumps_string (s : str) : str :=
  quote :: flat_map escape_char s ++ [quote].

Fixpoint dumps (v : json) : str :=
  match v with
  | JNull => lit "null"
  | JBool true => lit "true"
  | JBool false => lit "false"
  | JNum literal => literal
  | JStr s => dumps_string s
  | JArr items => lit "[" ++ join (lit ",") (map dumps items) ++ lit "]"
  | JObj members =>
      lit "{" ++
      join (lit ",")
        (map (fun kv => dumps_string (fst kv) ++ lit ":" ++ dumps (snd kv))
             members) ++
      lit "}"
  end.

(** A line break followed by the indentation of nesting level [level]. *)
Definition newline_indent (level : nat) : str :=
  newline :: repeat space (2 * level).

Fixpoint pretty (level : nat) (v : json) : str :=
  match v with
  | JArr [] => lit "[]"
  | JArr items =>
      lit "[" ++ newline_indent (S level) ++
      join (lit "," ++ newline_indent (S level))
           (map (pretty (S level)) items) ++
      newline_indent level ++ lit "]"
  | JObj [] => lit "{}"
  | JObj members =>
      lit "{" ++ newline_indent (S level) ++
      join (lit "," ++ newline_indent (S level))
           (map (fun kv =>
                   dumps_string (fst kv) ++ lit ": " ++ pretty (S level) (snd kv))
                members) ++
      newline_indent level ++ lit "}"
  | _ => dumps v
  end.

(** *** Conditions on the strings and numbers of a value *)

Definition is_digit (c : ascii) : bool :=
  let n := nat_of_ascii c in ((48 <=? n) && (n <=? 57))%nat.

(** The characters a number literal is written with. *)
Definition is_num_char (c : ascii) : bool :=
  is_digit c || Ascii.eqb c "-"%char || Ascii.eqb c "+"%char ||
  Ascii.eqb c "."%char || Ascii.eqb c "e"%char || Ascii.eqb c "E"%char.

Fixpoint drop_digits (s : str) : str :=
  match s with
  | c :: s' => if is_digit c then drop_digits s' else s
  | [] => []
  end.

(** [e] or [E], an optional sign, one digit or more, and nothing else;
    or nothing at all. *)
Definition valid_exp (s : str) : bool :=
  match s with
  | [] => true
  | e :: r =>
      if Ascii.eqb e "e"%char || Ascii.eqb e "E"%char then
        let r' := match r with
                  | c :: x => if Ascii.eqb c "+"%char || Ascii.eqb c "-"%char then x else r
                  | [] => r
                  end in
        match r' with
        | d :: r'' => is_digit d && forallb is_digit r''
        | [] => false
        end
      else false
  end.

Definition valid_frac_exp (s : str) : bool :=
  match s with
  | c :: d :: r =>
      if Ascii.eqb c "."%char then is_digit d && valid_exp (drop_digits r)
      else valid_exp s
  | _ => valid_exp s
  end.

(** The JSON grammar of a number literal. *)
Definition valid_number (s : str) : bool :=
  let s1 := match s with
            | c :: r => if Ascii.eqb c "-"%char then r else s
            | [] => s
            end in
  match s1 with
  | d :: r =>
      if Ascii.eqb d "0"%char then valid_frac_exp r
      else is_digit d && valid_frac_exp (drop_digits r)
  | [] => false
  end.

(** Every number literal of the value is a JSON number. *)
Fixpoint well_formed (v : json) : bool :=
  match v with
  | JNum literal => forallb is_num_char literal && valid_number literal
  | JArr items => forallb well_formed items
  | JObj members => forallb (fun kv => well_formed (snd kv)) members
  | _ => true
  end.

(** The test [f] holds of every string of the value, member name or
    string value. *)
Fixpoint all_strings (f : str -> bool) (v : json) : bool :=
  match v with
  | JStr s => f s
  | JArr items => forallb (all_strings f) items
  | JObj members =>
      forallb (fun kv => f (fst kv) && all_strings f (snd kv)) members
  | _ => true
  end.

Definition has_space (s : str) : bool := existsb (Ascii.eqb space) s.

(** No string of the value, member name or string value, contains a
    space. *)
Fixpoint no_space (v : json) : bool :=
  match v with
  | JStr s => negb (has_space s)
  | JArr items => forallb no_space items
  | JObj members =>
      forallb (fun kv => negb (has_space (fst kv)) && no_space (snd kv)) members
  | _ => true
  end.

(** Every number literal of the value is written with the characters of
    a number. *)
Fixpoint numbers_ok (v : json) : bool :=
  match v with
  | JNum literal => forallb is_num_char literal
  | JArr items => forallb numbers_ok items
  | JObj members => forallb (fun kv => numbers_ok (snd kv)) members
  | _ => true
  end.

(** Induction on values, with the hypothesis for every item of an array
    and every member of an object. *)
Section Induction.

Variable P : json -> Prop.
Hypothesis P_null : P JNull.
Hypothesis P_bool : forall b, P (JBool b).
Hypothesis P_num : forall literal, P (JNum literal).
Hypothesis P_str : forall s, P (JStr s).
Hypothesis P_arr : forall items, Forall P items -> P (JArr items).
Hypothesis P_obj :
  forall members, Forall (fun kv => P (snd kv)) members -> P (JObj members).

Fixpoint json_induction (v : json) : P v :=
  match v with
  | JNull => P_null
  | JBool b => P_bool b
  | JNum literal => P_num literal
  | JStr s => P_str s
  | JArr items =>
      P_arr
        ((fix all (l : list json) : Forall P l :=
            match l with
            | [] => Forall_nil P
            | x :: l' => Forall_cons x (json_induction x) (all l')
            end) items)
  | JObj members =>
      P_obj
        ((fix all (l : list (str * json)) : Forall (fun kv => P (snd kv)) l :=
            match l with
            | [] => Forall_nil _
            | (k, x) :: l' =>
                Forall_cons (P := fun kv => P (snd kv)) (k, x)
                            (json_induction x) (all l')
            end) members)
  end.

End Induction.

(** What [az ... show-manifests] writes for a list of manifests. *)
Definition listing (manifests : list json) : str :=
  pretty 0 (JArr manifests) ++ [newline].

End Json.
Import Json.

(* ===================================================================== *)
(** ** pandas timestamps *)
(* ===================================================================== *)

Module Pandas.
Local Open Scope Z_scope.

(** A [pd.Timestamp]: the reading of a wall clock, in nanoseconds since
    1970-01-01T00:00:00 on that clock, and, for a timezone-aware value, the
    offset of the clock from UTC in nanoseconds (east positive).  [NaT] is
    pandas' missing timestamp.  The bounds of pandas' 64-bit representation
    are not modelled. *)
Inductive datetime : Type :=
| NaT
| Stamp (wall : Z) (utcoffset : option Z).

(** [t.tz_localize(None)]: forget the timezone, keep the wall clock. *)
Definition tz_localize_none (t : datetime) : datetime :=
  match t with
  | NaT => NaT
  | Stamp wall _ => Stamp wall None
  end.

(** The instant a timestamp denotes, in nanoseconds since the epoch in UTC;
    a naive timestamp is read as UTC. *)
Definition utc_value (wall : Z) (utcoffset : option Z) : Z :=
  match utcoffset with
  | Some o => wall - o
  | None => wall
  end.

(** [a - b] for two naive timestamps: a [pd.Timedelta] in nanoseconds, or
    [None] for [NaT].  (The script only subtracts naive values: the result
    of [tz_localize(None)] from the result of [pd.Timestamp.now()].) *)
Definition sub (a b : datetime) : option Z :=
  match a, b with
  | Stamp wa _, Stamp wb _ => Some (wa - wb)
  | _, _ => None
  end.

Definition ns_per_day : Z := 86400 * 1000000000.

(** [td.days]: whole days, rounded towards minus infinity; [None] is the
    [nan] pandas gives for [NaT]. *)
Definition days (td : option Z) : option Z :=
  match td with
  | Some ns => Some (ns / ns_per_day)
  | None => None
  end.

(** [diff >= n]; every comparison with [nan] is false. *)
Definition ge (diff : option Z) (n : Z) : bool :=
  match diff with
  | Some d => n <=? d
  | None => false
  end.

End Pandas.
Import Pandas.

(* ===================================================================== *)
(** ** The script *)
(* ===================================================================== *)

Module Bot.
Local Open Scope Z_scope.

(** What [proc.communicate()] and [proc.returncode] give for a finished
    child process; the two streams are modelled after their UTF-8 decoding
    (the script decodes [stdout] on success and [stderr] on failure). *)
Record proc : Type := {
  returncode : Z;
  stdout : str;
  stderr : str
}.

(** Everything outside the script: the machine the [az] commands act on,
    its clock and timezone, and the library functions the script calls on
    text it received.
    - [spawn w argv] is [subprocess.Popen(argv, ...)] followed by
      [communicate()]: the finished process and the world after it (the
      [az] executable is taken to exist);
    - [clock w] is the current instant in nanoseconds since the epoch (UTC);
    - [localtime t] is the wall-clock reading of instant [t] in the
      machine's timezone, in nanoseconds;
    - [json_loads] is [json.loads], [None] standing for [JSONDecodeError];
    - [to_datetime] is [pd.to_datetime] on the value of a manifest's
      ["timestamp"], [None] standing for an exception in line 138 (a text
      that is no date, a value that is no scalar);
    - [py_str v] is what an f-string prints for a value that is not a
      string.
    The theorems hold for every outside world. *)
Class Outside : Type := {
  World : Type;
  spawn : World -> list str -> proc * World;
  clock : World -> Z * World;
  localtime : Z -> Z;
  json_loads : str -> option json;
  to_datetime : json -> option datetime;
  py_str : json -> str
}.

(** The command-line arguments, as [parse_args] returns them: the name
    of the registry ([-n], [--name], required) and the flag [--dry-run]. *)
Record args : Type := {
  name : str;
  dry_run : bool
}.

(** Modelled from the spec: the exception class [AzureError] of the module
    [CustomExceptions], which the script imports and which is not among
    the sources: one kind of error, "external operation failed", carrying
    the error text captured from the failed operation.  The other
    constructors are the exceptions of lines 137-146: [json.loads] on a
    text that is no JSON, a missing key, a manifest that is no [dict], a
    timestamp pandas rejects. *)
Inductive exn : Type :=
| AzureError (err_msg : str)
| JSONDecodeError
| KeyError (key : str)
| TypeError
| DatetimeError.

(** The log lines of the script, one constructor per [logging] call, with
    the values its f-string prints. *)
Inductive message : Type :=
| MsgDryRun
| MsgLoginAzure
| MsgLoggedIntoAzure
| MsgLoginACR
| MsgLoggedIntoACR (registry : str)
| MsgFetching (registry : str)
| MsgFetched (registry : str)
| MsgTotalRepos (n : nat)
| MsgChecking
| MsgPulled (repo : str)
| MsgTotalManifests (repo : str) (n : nat)
| MsgOld (image : str) (diff : option Z)
| MsgEligible (n : nat)
| MsgToBeDeleted (n : nat)
| MsgDeleting (image : str)
| MsgDeleted (image : str)
| MsgNumberDeleted (n : nat).

Inductive log_record : Type :=
| INFO (m : message)
| ERROR (text : str).

(** What the script does to the outside, in the order it does it. *)
Inductive event : Type :=
| Log (r : log_record)
| Spawn (argv : list str) (p : proc)
| Now (instant : Z).

(** The three variables of the set-up block of [main]. *)
Record locals : Type := {
  images_to_be_deleted_number : nat;
  images_to_be_deleted_digest : list str;
  deleted_images_total : nat
}.

Definition setup : locals :=
  {| images_to_be_deleted_number := 0;
     images_to_be_deleted_digest := [];
     deleted_images_total := 0 |}.

(** How a computation ends: with a value, or with an exception. *)
Inductive result (A : Type) : Type :=
| Ok (a : A)
| Raised (e : exn).
Arguments Ok {A} a.
Arguments Raised {A} e.

Section Script.
Context {O : Outside}.

(** The state of a run: the outside world, the variables, and the events
    so far, oldest first, each with the variables as they were when it
    happened. *)
Record state : Type := {
  world : World;
  vars : locals;
  history : list (event * locals)
}.

(** State and exceptions: a raised exception keeps the state it was
    raised in. *)
Definition M (A : Type) : Type := state -> result A * state.

Definition ret {A} (a : A) : M A := fun s => (Ok a, s).

Definition bind {A B} (m : M A) (k : A -> M B) : M B :=
  fun s =>
    match m s with
    | (Ok a, s') => k a s'
    | (Raised e, s') => (Raised e, s')
    end.

Definition raise {A} (e : exn) : M A := fun s => (Raised e, s).

Definition record (e : event) (w : World) (s : state) : state :=
  {| world := w; vars := vars s; history := history s ++ [(e, vars s)] |}.

Definition logging_info (m : message) : M unit :=
  fun s => (Ok tt, record (Log (INFO m)) (world s) s).

Definition logging_error (text : str) : M unit :=
  fun s => (Ok tt, record (Log (ERROR text)) (world s) s).

(** [subprocess.Popen(argv, stdout=PIPE, stderr=PIPE)] and
    [proc.communicate()]. *)
Definition Popen (argv : list str) : M proc :=
  fun s =>
    let reply := spawn (world s) argv in
    (Ok (fst reply), record (Spawn argv (fst reply)) (snd reply) s).

(** [pd.Timestamp.now()]: the naive local time. *)
Definition Timestamp_now : M datetime :=
  fun s =>
    let reading := clock (world s) in
    (Ok (Stamp (localtime (fst reading)) None),
     record (Now (fst reading)) (snd reading) s).

Definition get_vars : M locals := fun s => (Ok (vars s), s).

Definition modify_vars (f : locals -> locals) : M unit :=
  fun s => (Ok tt, {| world := world s; vars := f (vars s); history := history s |}).

End Script.

Declare Scope bot_scope.
Delimit Scope bot_scope with bot.
Notation "x <- m ;; k" := (bind m (fun x => k))
  (at level 61, m at next level, right associativity) : bot_scope.
Notation "m ;; k" := (bind m (fun _ => k))
  (at level 61, right associativity) : bot_scope.
Local Open Scope bot_scope.

Section Main.
Context {O : Outside}.

(** [for x in l: body]. *)
Fixpoint for_each {A} (l : list A) (body : A -> M unit) : M unit :=
  match l with
  | [] => ret tt
  | x :: l' => body x ;; for_each l' body
  end.

(** [enumerate(l)]. *)
Definition enumerate {A} (l : list A) : list (nat * A) :=
  combine (seq 0 (length l)) l.

(** [manifest[key]]: only a [dict] can be indexed by a string. *)
Definition getitem (manifest : json) (key : str) : M json :=
  match manifest with
  | JObj members =>
      match dict_get key members with
      | Some v => ret v
      | None => raise (KeyError key)
      end
  | _ => raise TypeError
  end.

(** The text an f-string prints for a value. *)
Definition fmt (v : json) : str :=
  match v with
  | JStr s => s
  | _ => py_str v
  end.

(** The test every [az] call is followed by: run the success branch on
    return code 0; otherwise log the error text and raise. *)
Definition check (p : proc) (on_success : M unit) : M unit :=
  if returncode p =? 0 then on_success
  else
    let err_msg := stderr p in
    logging_error err_msg ;;
    raise (AzureError err_msg).

Definition az_login : list str :=
  [lit "az"; lit "login"; lit "--identity"].

Definition az_acr_login (registry : str) : list str :=
  [lit "az"; lit "acr"; lit "login"; lit "-n"; registry].

Definition az_repository_list (registry : str) : list str :=
  [lit "az"; lit "acr"; lit "repository"; lit "list"; lit "-n"; registry;
   lit "-o"; lit "tsv"].

Definition az_show_manifests (registry repo : str) : list str :=
  [lit "az"; lit "acr"; lit "repository"; lit "show-manifests"; lit "-n";
   registry; lit "--repository"; repo; lit "--orderby"; lit "time_desc"].

Definition az_delete (registry image : str) : list str :=
  [lit "az"; lit "acr"; lit "repository"; lit "delete"; lit "-n"; registry;
   lit "--image"; image].

(** Does a command line call the delete operation? *)
Definition is_delete_argv (argv : list str) : bool :=
  match argv with
  | a :: b :: c :: d :: _ =>
      str_eqb a (lit "az") && str_eqb b (lit "acr") &&
      str_eqb c (lit "repository") && str_eqb d (lit "delete")
  | _ => false
  end.

Definition is_delete (e : event) : bool :=
  match e with
  | Spawn argv _ => is_delete_argv argv
  | _ => false
  end.

(** The log lines that do not speak of deletions under way. *)
Definition reading_message (m : message) : Prop :=
  match m with
  | MsgToBeDeleted _ | MsgDeleting _ | MsgDeleted _ | MsgNumberDeleted _ => False
  | _ => True
  end.

(** The events of the reading steps on [registry] and of the report of a
    dry run: those log lines, error logs, clock readings, and the four
    [az] calls that change nothing. *)
Definition reads (registry : str) (e : event) : Prop :=
  match e with
  | Log (INFO m) => reading_message m
  | Log (ERROR _) => True
  | Spawn argv _ =>
      argv = az_login \/ argv = az_acr_login registry \/
      argv = az_repository_list registry \/
      exists repo, argv = az_show_manifests registry repo
  | Now _ => True
  end.

(** The events of the deletions on [registry]: log lines and delete
    calls. *)
Definition deletes (registry : str) (e : event) : Prop :=
  match e with
  | Log _ => True
  | Spawn argv _ => exists image, argv = az_delete registry image
  | Now _ => False
  end.

(** The events of a run on [registry]. *)
Definition issued (registry : str) (e : event) : Prop :=
  reads registry e \/ deletes registry e.

(** Line 101: [output.split("\n")[:-1]]. *)
Definition repos_of (output : str) : list str :=
  slice_to_m1 (split [newline] output).

(** Line 124:
    [output.replace("\n", "").replace(" ", "")[1:-1].split("},")]. *)
Definition outputs_of (output : str) : list str :=
  split (lit "},")
    (slice_1_m1 (replace [space] [] (replace [newline] [] output))).

(** Lines 133-134: every piece but the last gets its brace back. *)
Definition restore (n j : nat) (output : str) : str :=
  if (j <? n - 1)%nat then output ++ lit "}" else output.

(** Lines 138-141: the age of a manifest whose timestamp pandas has
    parsed, at the instant [t] the clock is read. *)
Definition age_days (t : Z) (parsed : datetime) : option Z :=
  days (sub (Stamp (localtime t) None) (tz_localize_none parsed)).

(** Lines 146-147, one step: nothing happens between the two
    statements. *)
Definition add_candidate (image : str) (v : locals) : locals :=
  {| images_to_be_deleted_number := images_to_be_deleted_number v + 1;
     images_to_be_deleted_digest := images_to_be_deleted_digest v ++ [image];
     deleted_images_total := deleted_images_total v |}.

(** Line 167. *)
Definition count_deleted (v : locals) : locals :=
  {| images_to_be_deleted_number := images_to_be_deleted_number v;
     images_to_be_deleted_digest := images_to_be_deleted_digest v;
     deleted_images_total := deleted_images_total v + 1 |}.

(** Lines 143-147: the decision on one manifest of age [diff]. *)
Definition classify (repo : str) (manifest : json) (diff : option Z) : M unit :=
  if ge diff 90 then
    digest <- getitem manifest (lit "digest") ;;
    logging_info (MsgOld (repo ++ lit "@" ++ fmt digest) diff) ;;
    modify_vars (add_candidate (repo ++ lit "@" ++ fmt digest))
  else ret tt.

(** Lines 136-147: one manifest. *)
Definition evaluate (repo output : str) : M unit :=
  manifest <- match json_loads output with
              | Some v => ret v
              | None => raise JSONDecodeError
              end ;;
  raw <- getitem manifest (lit "timestamp") ;;
  parsed <- match to_datetime raw with
            | Some d => ret d
            | None => raise DatetimeError
            end ;;
  let timestamp := tz_localize_none parsed in
  now <- Timestamp_now ;;
  let diff := days (sub now timestamp) in
  classify repo manifest diff.

(** Lines 132-134: the texts handed to [json.loads], in order. *)
Definition pieces (outputs : list str) : list str :=
  map (fun '(j, output) => restore (length outputs) j output)
      (enumerate outputs).

(** Lines 110-147: one repository. *)
Definition check_repository (registry repo : str) : M unit :=
  p <- Popen (az_show_manifests registry repo) ;;
  check p
    (logging_info (MsgPulled repo) ;;
     logging_info (MsgTotalManifests repo (length (outputs_of (stdout p))))) ;;
  let outputs := outputs_of (stdout p) in
  for_each (enumerate outputs)
    (fun '(j, output) => evaluate repo (restore (length outputs) j output)).

(** Lines 154-171: one candidate. *)
Definition delete_image (registry image : str) : M unit :=
  logging_info (MsgDeleting image) ;;
  p <- Popen (az_delete registry image) ;;
  check p (logging_info (MsgDeleted image) ;; modify_vars count_deleted).

(** Lines 60-147: the logins, the repositories and their manifests. *)
Definition collect (registry : str) : M unit :=
  logging_info MsgLoginAzure ;;
  p <- Popen az_login ;;
  check p (logging_info MsgLoggedIntoAzure) ;;
  logging_info MsgLoginACR ;;
  p <- Popen (az_acr_login registry) ;;
  check p (logging_info (MsgLoggedIntoACR registry)) ;;
  logging_info (MsgFetching registry) ;;
  p <- Popen (az_repository_list registry) ;;
  check p
    (logging_info (MsgFetched registry) ;;
     logging_info (MsgTotalRepos (length (repos_of (stdout p))))) ;;
  let repos := repos_of (stdout p) in
  logging_info MsgChecking ;;
  for_each repos (check_repository registry).

(** Lines 154-173: the deletions. *)
Definition delete_all (registry : str) : M unit :=
  v <- get_vars ;;
  for_each (images_to_be_deleted_digest v) (delete_image registry) ;;
  v' <- get_vars ;;
  logging_info (MsgNumberDeleted (deleted_images_total v')).

(** Lines 149-173: the report and, in a live run, the deletions. *)
Definition finish (a : args) : M unit :=
  v <- get_vars ;;
  if dry_run a then
    logging_info (MsgEligible (images_to_be_deleted_number v))
  else
    logging_info (MsgToBeDeleted (images_to_be_deleted_number v)) ;;
    delete_all (name a).

Definition main (a : args) : M unit :=
  (if dry_run a then logging_info MsgDryRun else ret tt) ;;
  collect (name a) ;;
  finish a.

(** A run starts with the variables of the set-up block and no event.
    (The script binds the variables after its first log line; nothing
    reads them before.) *)
Definition initial (w : World) : state :=
  {| world := w; vars := setup; history := [] |}.

Definition run (a : args) (w : World) : result unit * state :=
  main a (initial w).

End Main.

End Bot.
Import Bot.
Open Scope bot_scope.

(* ===================================================================== *)
(** ** A reference outside world *)
(* ===================================================================== *)

(** One instance of [Outside] that computes, to run the script on concrete
    inputs: a machine that answers the [az] calls from a prepared queue of
    replies, with a stopped clock, a JSON parser, and a parser for the
    ISO 8601 timestamps a registry writes.  The parsers cover a fragment of
    what [json.loads] and [pd.to_datetime] accept (no [NaN] or [Infinity],
    no escapes beyond ASCII, one timestamp format); the general theorems
    below do not depend on them. *)
Module Ref.
Local Open Scope Z_scope.

(** *** JSON *)

Definition is_ws (c : ascii) : bool :=
  let n := nat_of_ascii c in
  ((n =? 32) || (n =? 9) || (n =? 10) || (n =? 13))%nat.

Fixpoint skip_ws (s : str) : str :=
  match s with
  | c :: s' => if is_ws c then skip_ws s' else s
  | [] => []
  end.

Definition hex_value (c : ascii) : option nat :=
  let n := nat_of_ascii c in
  if ((48 <=? n) && (n <=? 57))%nat then Some (n - 48)%nat
  else if ((97 <=? n) && (n <=? 102))%nat then Some (n - 87)%nat
  else if ((65 <=? n) && (n <=? 70))%nat then Some (n - 55)%nat
  else None.

Definition code_point (h1 h2 h3 h4 : ascii) : option nat :=
  match hex_value h1, hex_value h2, hex_value h3, hex_value h4 with
  | Some a, Some b, Some c, Some d => Some (((a * 16 + b) * 16 + c) * 16 + d)%nat
  | _, _, _, _ => None
  end.

(** The character a one-letter escape stands for. *)
Definition unescape (e : ascii) : option ascii :=
  let n := nat_of_ascii e in
  if (n =? 34)%nat then Some quote
  else if (n =? 92)%nat then Some backslash
  else if (n =? 47)%nat then Some "/"%char
  else if (n =? 98)%nat then Some (ascii_of_nat 8)
  else if (n =? 102)%nat then Some (ascii_of_nat 12)
  else if (n =? 110)%nat then Some (ascii_of_nat 10)
  else if (n =? 114)%nat then Some (ascii_of_nat 13)
  else if (n =? 116)%nat then Some (ascii_of_nat 9)
  else None.

Definition push (c : ascii) (r : option (str * str)) : option (str * str) :=
  match r with
  | Some (x, rest) => Some (c :: x, rest)
  | None => None
  end.

(** The characters of a string literal, after its opening quote, up to and
    including the closing quote. *)
Fixpoint parse_chars (s : str) : option (str * str) :=
  match s with
  | [] => None
  | c :: s' =>
      if Ascii.eqb c quote then Some ([], s')
      else if Ascii.eqb c backslash then
        match s' with
        | [] => None
        | e :: s'' =>
            if Ascii.eqb e "u"%char then
              match s'' with
              | h1 :: h2 :: h3 :: h4 :: s3 =>
                  match code_point h1 h2 h3 h4 with
                  | Some n =>
                      if (n <? 128)%nat then push (ascii_of_nat n) (parse_chars s3)
                      else None
                  | None => None
                  end
              | _ => None
              end
            else
              match unescape e with
              | Some d => push d (parse_chars s'')
              | None => None
              end
        end
      else if (nat_of_ascii c <? 32)%nat then None
      else push c (parse_chars s')
  end.

Fixpoint span (f : ascii -> bool) (s : str) : str * str :=
  match s with
  | c :: s' => if f c then let (a, b) := span f s' in (c :: a, b) else ([], s)
  | [] => ([], [])
  end.

(** A literal name or a number. *)
Definition parse_atom (s : str) : option (json * str) :=
  match strip_prefix (lit "null") s with
  | Some r => Some (JNull, r)
  | None =>
  match strip_prefix (lit "true") s with
  | Some r => Some (JBool true, r)
  | None =>
  match strip_prefix (lit "false") s with
  | Some r => Some (JBool false, r)
  | None =>
      let (literal, r) := span is_num_char s in
      if valid_number literal then Some (JNum literal, r) else None
  end end end.

Fixpoint parse_value (fuel : nat) (s : str) {struct fuel} : option (json * str) :=
  match fuel with
  | O => None
  | S f =>
      match skip_ws s with
      | [] => None
      | c :: r =>
          if Ascii.eqb c quote then
            match parse_chars r with
            | Some (x, r') => Some (JStr x, r')
            | None => None
            end
          else if Ascii.eqb c "["%char then
            match skip_ws r with
            | c' :: r' =>
                if Ascii.eqb c' "]"%char then Some (JArr [], r')
                else
                  match parse_items f r with
                  | Some (items, r'') => Some (JArr items, r'')
                  | None => None
                  end
            | [] => None
            end
          else if Ascii.eqb c "{"%char then
            match skip_ws r with
            | c' :: r' =>
                if Ascii.eqb c' "}"%char then Some (JObj [], r')
                else
                  match parse_members f r with
                  | Some (members, r'') => Some (JObj members, r'')
                  | None => None
                  end
            | [] => None
            end
          else parse_atom (c :: r)
      end
  end

with parse_items (fuel : nat) (s : str) {struct fuel} : option (list json * str) :=
  match fuel with
  | O => None
  | S f =>
      match parse_value f s with
      | Some (v, r) =>
          match skip_ws r with
          | c :: r' =>
              if Ascii.eqb c ","%char then
                match parse_items f r' with
                | Some (vs, r'') => Some (v :: vs, r'')
                | None => None
                end
              else if Ascii.eqb c "]"%char then Some ([v], r')
              else None
          | [] => None
          end
      | None => None
      end
  end

with parse_members (fuel : nat) (s : str) {struct fuel}
  : option (list (str * json) * str) :=
  match fuel with
  | O => None
  | S f =>
      match skip_ws s with
      | q :: r0 =>
          if Ascii.eqb q quote then
            match parse_chars r0 with
            | Some (k, r1) =>
                match skip_ws r1 with
                | colon :: r2 =>
                    if Ascii.eqb colon ":"%char then
                      match parse_value f r2 with
                      | Some (v, r3) =>
                          match skip_ws r3 with
                          | c :: r4 =>
                              if Ascii.eqb c ","%char then
                                match parse_members f r4 with
                                | Some (ms, r5) => Some ((k, v) :: ms, r5)
                                | None => None
                                end
                              else if Ascii.eqb c "}"%char then Some ([(k, v)], r4)
                              else None
                          | [] => None
                          end
                      | None => None
                      end
                    else None
                | [] => None
                end
            | None => None
            end
          else None
      | [] => None
      end
  end.

(** [json.loads]: one value, with nothing but white space around it. *)
Definition json_loads (s : str) : option json :=
  match parse_value (2 * length s + 2) s with
  | Some (v, r) => match skip_ws r with [] => Some v | _ => None end
  | None => None
  end.

(** *** Timestamps *)

Definition digit (c : ascii) : option Z :=
  if is_digit c then Some (Z.of_nat (nat_of_ascii c) - 48) else None.

Fixpoint number (acc : Z) (s : str) : option Z :=
  match s with
  | [] => Some acc
  | c :: s' =>
      match digit c with
      | Some d => number (acc * 10 + d) s'
      | None => None
      end
  end.

(** A field of exactly [n] digits. *)
Definition field (n : nat) (s : str) : option (Z * str) :=
  if (length (firstn n s) =? n)%nat then
    match number 0 (firstn n s) with
    | Some v => Some (v, skipn n s)
    | None => None
    end
  else None.

Definition expect (c : ascii) (s : str) : option str :=
  match s with
  | c' :: r => if Ascii.eqb c c' then Some r else None
  | [] => None
  end.

(** Days from 1970-01-01 to the given day of the proleptic Gregorian
    calendar. *)
Definition days_from_civil (y m d : Z) : Z :=
  let y' := if m <=? 2 then y - 1 else y in
  let era := y' / 400 in
  let yoe := y' - era * 400 in
  let doy := (153 * (if 2 <? m then m - 3 else m + 9) + 2) / 5 + d - 1 in
  let doe := yoe * 365 + yoe / 4 - yoe / 100 + doy in
  era * 146097 + doe - 719468.

(** The fraction of a second, in nanoseconds: at most nine digits. *)
Definition fraction (s : str) : option (Z * str) :=
  match s with
  | c :: r =>
      if Ascii.eqb c "."%char then
        let (ds, rest) := span is_digit r in
        if ((1 <=? length ds) && (length ds <=? 9))%nat then
          match number 0 ds with
          | Some v => Some (v * 10 ^ Z.of_nat (9 - length ds), rest)
          | None => None
          end
        else None
      else Some (0, s)
  | [] => Some (0, s)
  end.

(** The zone designator: nothing (a naive time), [Z], or a signed
    [HH:MM]; the offset is in nanoseconds. *)
Definition zone (s : str) : option (option Z) :=
  match s with
  | [] => Some None
  | c :: r =>
      if Ascii.eqb c "Z"%char then
        match r with [] => Some (Some 0) | _ => None end
      else
        let sign := if Ascii.eqb c "+"%char then Some 1
                    else if Ascii.eqb c "-"%char then Some (-1)
                    else None in
        match sign, field 2 r with
        | Some sg, Some (hh, r1) =>
            match expect ":"%char r1 with
            | Some r2 =>
                match field 2 r2 with
                | Some (mm, []) => Some (Some (sg * (hh * 3600 + mm * 60) * 1000000000))
                | _ => None
                end
            | None => None
            end
        | _, _ => None
        end
  end.

Definition in_range (lo v hi : Z) : bool := (lo <=? v) && (v <=? hi).

(** [YYYY-MM-DDTHH:MM:SS], an optional fraction, an optional zone. *)
Definition parse_iso (s : str) : option datetime :=
  match field 4 s with
  | Some (y, s1) =>
  match expect "-"%char s1 with
  | Some s2 =>
  match field 2 s2 with
  | Some (mo, s3) =>
  match expect "-"%char s3 with
  | Some s4 =>
  match field 2 s4 with
  | Some (d, s5) =>
  match expect "T"%char s5 with
  | Some s6 =>
  match field 2 s6 with
  | Some (hh, s7) =>
  match expect ":"%char s7 with
  | Some s8 =>
  match field 2 s8 with
  | Some (mi, s9) =>
  match expect ":"%char s9 with
  | Some s10 =>
  match field 2 s10 with
  | Some (ss, s11) =>
  match fraction s11 with
  | Some (ns, s12) =>
  match zone s12 with
  | Some tz =>
      if in_range 1 mo 12 && in_range 1 d 31 && in_range 0 hh 23 &&
         in_range 0 mi 59 && in_range 0 ss 59
      then
        Some (Stamp
                ((((days_from_civil y mo d * 24 + hh) * 60 + mi) * 60 + ss)
                 * 1000000000 + ns)
                tz)
      else None
  | None => None end
  | None => None end
  | None => None end
  | None => None end
  | None => None end
  | None => None end
  | None => None end
  | None => None end
  | None => None end
  | None => None end
  | None => None end
  | None => None end
  | None => None end.

(** [pd.to_datetime] on a string in that format; the empty string gives
    [NaT], as in pandas. *)
Definition to_datetime (v : json) : option datetime :=
  match v with
  | JStr [] => Some NaT
  | JStr s => parse_iso s
  | _ => None
  end.

(** What an f-string prints for the scalars that are not strings. *)
Definition py_str (v : json) : str :=
  match v with
  | JNull => lit "None"
  | JBool true => lit "True"
  | JBool false => lit "False"
  | JNum literal => literal
  | _ => dumps v
  end.

(** *** The machine *)

(** The replies the [az] calls will get, in order, and the instant the
    clock shows. *)
Record machine : Type := {
  replies : list proc;
  instant : Z
}.

Definition no_reply : proc :=
  {| returncode := 127; stdout := []; stderr := lit "az: command not found" |}.

Definition spawn (w : machine) (argv : list str) : proc * machine :=
  match replies w with
  | p :: rest => (p, {| replies := rest; instant := instant w |})
  | [] => (no_reply, w)
  end.

Definition clock (w : machine) : Z * machine := (instant w, w).

(** A machine whose local time is [offset] nanoseconds ahead of UTC. *)
Definition outside (offset : Z) : Outside :=
  {| World := machine;
     Bot.spawn := spawn;
     Bot.clock := clock;
     localtime := fun t => t + offset;
     Bot.json_loads := json_loads;
     Bot.to_datetime := to_datetime;
     Bot.py_str := py_str |}.

Definition success (out : str) : proc :=
  {| returncode := 0; stdout := out; stderr := [] |}.

Definition failure (code : Z) (err : str) : proc :=
  {| returncode := code; stdout := []; stderr := err |}.

(** A manifest as the registry lists it. *)
Definition manifest (digest timestamp : string) : json :=
  JObj [(lit "digest", JStr (lit digest));
        (lit "timestamp", JStr (lit timestamp))].

End Ref.

(* ===================================================================== *)
(** ** The vocabulary of the properties *)
(* ===================================================================== *)

(** The counter is the length of the list. *)
Definition counted (v : locals) : Prop :=
  images_to_be_deleted_number v = length (images_to_be_deleted_digest v).

(** From [v] to [v'], the counter and the list are both unchanged, or one
    identifier was appended and the counter went up by one. *)
Definition step (v v' : locals) : Prop :=
  (images_to_be_deleted_number v' = images_to_be_deleted_number v /\
   images_to_be_deleted_digest v' = images_to_be_deleted_digest v) \/
  (exists image,
     images_to_be_deleted_digest v' = images_to_be_deleted_digest v ++ [image] /\
     images_to_be_deleted_number v' = images_to_be_deleted_number v + 1).

(** Every element of [l] is one [step] from the one before it, the first
    from [v]. *)
Fixpoint chain (v : locals) (l : list locals) : Prop :=
  match l with
  | [] => True
  | v' :: l' => step v v' /\ chain v' l'
  end.

(** The text made of the given lines, each closed by the character [c]. *)
Definition lines (c : ascii) (segs : list str) : str :=
  concat (map (fun seg => seg ++ [c]) segs).

(** The command lines of the delete calls of a history, in order. *)
Definition delete_calls (h : list (event * locals)) : list (list str) :=
  flat_map
    (fun ev =>
       match fst ev with
       | Spawn argv _ => if is_delete_argv argv then [argv] else []
       | _ => []
       end) h.

(** The counter of deleted images does not exceed the counter of
    candidates. *)
Definition within (v : locals) : Prop :=
  deleted_images_total v <= images_to_be_deleted_number v.

(* ===================================================================== *)
(** ** Concrete registries *)
(* ===================================================================== *)

Module Example.
Import Ref.

(** 2026-11-04T12:00:00Z. *)
Definition noon : Z := 1793793600000000000%Z.

Definition registry : str := lit "myregistry".
Definition live : args := {| name := registry; dry_run := false |}.
Definition dry : args := {| name := registry; dry_run := true |}.

(** A machine on UTC and one an hour ahead of it. *)
Definition utc : Outside := outside 0.
Definition utc_plus_1 : Outside := outside 3600000000000.

(** Images pushed 307 days, 10 days, 91 days, and 90 days less half an
    hour before [noon]. *)
Definition image_a : json := manifest "sha256:a" "2026-01-01T10:00:00.1234567Z".
Definition image_b : json := manifest "sha256:b" "2026-10-25T08:30:00Z".
Definition image_c : json := manifest "sha256:c" "2026-08-05T12:00:00Z".
Definition image_d : json := manifest "sha256:d" "2026-08-06T12:30:00Z".

Definition app : str := lit "app".

(** The registry of the scenario: one repository, an old and a recent
    image; the delete call answers [reply]. *)
Definition scenario (reply : proc) : machine :=
  {| replies := [success []; success []; success (lines newline [app]);
                 success (listing [image_a; image_b]); reply];
     instant := noon |}.

(** Two old images; the first delete call is refused. *)
Definition refused : machine :=
  {| replies := [success []; success []; success (lines newline [app]);
                 success (listing [image_a; image_c]);
                 failure 1 (lit "denied")];
     instant := noon |}.

(** A registry without repositories. *)
Definition empty_registry : machine :=
  {| replies := [success []; success []; success []]; instant := noon |}.

(** A repository without manifests, followed by one with an old image. *)
Definition empty_repository : machine :=
  {| replies := [success []; success [];
                 success (lines newline [lit "empty"; app]);
                 success (listing []);
                 success (listing [image_a]); success []];
     instant := noon |}.

(** One image, 90 days less half an hour old. *)
Definition borderline : machine :=
  {| replies := [success []; success []; success (lines newline [app]);
                 success (listing [image_d])];
     instant := noon |}.

(** An object with a nested object, and one with a line break in a
    string. *)
Definition nested : json :=
  JObj [(lit "changeableAttributes", JObj [(lit "deleteEnabled", JBool true)]);
        (lit "digest", JStr (lit "sha256:a"));
        (lit "timestamp", JStr (lit "2026-01-01T10:00:00Z"))].

Definition two_lines : json :=
  JObj [(lit "digest", JStr (lit "sha256:a"));
        (lit "note", JStr (lit "first" ++ [newline] ++ lit "second"));
        (lit "timestamp", JStr (lit "2026-01-01T10:00:00Z"))].

(** The test of the hypothesis of the claim about the reconstruction: no
    space, no line break, no ["},"] in the string. *)
Definition plain (s : str) : bool :=
  negb (has_space s) && negb (contains [newline] s) &&
  negb (contains (lit "},") s).

End Example.

(* ===================================================================== *)
(** ** Facts about strings *)
(* ===================================================================== *)

(** *** [partition] and [split] *)

Lemma strip_prefix_app (p s : str) : strip_prefix p (p ++ s) = Some s.
Proof.
  induction p as [|a p IH]; simpl; [reflexivity|].
  now rewrite Ascii.eqb_refl.
Qed.

Lemma strip_prefix_length (p s r : str) :
  strip_prefix p s = Some r -> length s = length p + length r.
Proof.
  revert s; induction p as [|a p IH]; intros s H; simpl in *.
  - now inversion H.
  - destruct s as [|b s]; [discriminate|].
    destruct (Ascii.eqb a b); [|discriminate].
    simpl; now rewrite (IH _ H).
Qed.

Lemma partition_length (sep s b a : str) :
  partition sep s = Some (b, a) -> length s = length b + length sep + length a.
Proof.
  revert b a; induction s as [|c s IH]; intros b a H.
  - simpl in H. destruct (strip_prefix sep []) eqn:E; [|discriminate].
    inversion H; subst. apply strip_prefix_length in E. simpl in *; lia.
  - simpl in H. destruct (strip_prefix sep (c :: s)) eqn:E.
    + inversion H; subst. apply strip_prefix_length in E. simpl in *; lia.
    + destruct (partition sep s) as [[b' a']|] eqn:P; [|discriminate].
      inversion H; subst. specialize (IH _ _ eq_refl). simpl; lia.
Qed.

(** Any two amounts of fuel from [length s] on give the same pieces. *)
Lemma split_fuel_irrel (sep : str) :
  sep <> [] ->
  forall n m s, length s <= n -> length s <= m ->
    split_fuel n sep s = split_fuel m sep s.
Proof.
  intros Hsep.
  assert (Hnil : partition sep [] = None).
  { destruct sep; [contradiction | reflexivity]. }
  induction n as [|n IH]; intros m s Hn Hm.
  - destruct s; [|simpl in Hn; lia].
    destruct m; cbn [split_fuel]; [reflexivity | now rewrite Hnil].
  - destruct m as [|m].
    + destruct s; [|simpl in Hm; lia]. cbn [split_fuel]. now rewrite Hnil.
    + cbn [split_fuel].
      destruct (partition sep s) as [[b a]|] eqn:P; [|reflexivity].
      f_equal. apply partition_length in P.
      assert (0 < length sep) by (destruct sep; [contradiction | simpl; lia]).
      apply IH; lia.
Qed.

Lemma split_fuel_enough (sep : str) :
  sep <> [] ->
  forall n s, length s <= n -> split_fuel n sep s = split sep s.
Proof.
  intros Hsep n s Hn. unfold split. now apply split_fuel_irrel.
Qed.

(** The equation [split] satisfies. *)
Lemma split_eq (sep s : str) :
  sep <> [] ->
  split sep s =
  match partition sep s with
  | None => [s]
  | Some (before, after) => before :: split sep after
  end.
Proof.
  intros Hsep. unfold split at 1.
  destruct s as [|c s].
  - simpl. destruct sep; [contradiction | reflexivity].
  - cbn [length split_fuel].
    destruct (partition sep (c :: s)) as [[b a]|] eqn:P; [|reflexivity].
    f_equal. apply split_fuel_enough; [assumption|].
    apply partition_length in P.
    assert (0 < length sep) by (destruct sep; [contradiction | simpl; lia]).
    simpl in P. lia.
Qed.

(* ===================================================================== *)
(** ** Reasoning about runs *)
(* ===================================================================== *)

Section Logic.
Context {O : Outside}.

(** [hoare P m Q]: started in a state that satisfies [P], the computation
    [m] ends, with a value or with an exception, in a state that
    satisfies [Q]. *)
Definition hoare {A} (P : state -> Prop) (m : M A) (Q : state -> Prop) : Prop :=
  forall s, P s -> Q (snd (m s)).

Lemma hoare_weaken {A} (P P' Q Q' : state -> Prop) (m : M A) :
  hoare P' m Q' -> (forall s, P s -> P' s) -> (forall s, Q' s -> Q s) ->
  hoare P m Q.
Proof. intros H HP HQ s Hs. apply HQ, H, HP, Hs. Qed.

Lemma hoare_ret {A} (P : state -> Prop) (a : A) : hoare P (ret a) P.
Proof. intros s Hs. exact Hs. Qed.

Lemma hoare_raise {A} (P : state -> Prop) (e : exn) : hoare P (@raise O A e) P.
Proof. intros s Hs. exact Hs. Qed.

Lemma hoare_bind {A B} (P R Q : state -> Prop) (m : M A) (k : A -> M B) :
  hoare P m R ->
  (forall s, R s -> Q s) ->
  (forall a, hoare R (k a) Q) ->
  hoare P (bind m k) Q.
Proof.
  intros Hm HRQ Hk s Hs. unfold bind.
  specialize (Hm s Hs).
  destruct (m s) as [[a|e] s']; simpl in *.
  - apply Hk, Hm.
  - apply HRQ, Hm.
Qed.

(** The same invariant before and after every step. *)
Lemma hoare_seq {A B} (I : state -> Prop) (m : M A) (k : A -> M B) :
  hoare I m I -> (forall a, hoare I (k a) I) -> hoare I (bind m k) I.
Proof. intros Hm Hk. apply hoare_bind with (R := I); auto. Qed.

Lemma hoare_for_each {A} (I : state -> Prop) (l : list A) (body : A -> M unit) :
  (forall x, In x l -> hoare I (body x) I) ->
  hoare I (for_each l body) I.
Proof.
  induction l as [|x l IH]; intros Hbody; simpl.
  - apply hoare_ret.
  - apply hoare_seq.
    + apply Hbody. now left.
    + intros _. apply IH. intros y Hy. apply Hbody. now right.
Qed.

Lemma hoare_getitem (I : state -> Prop) (manifest : json) (key : str) :
  hoare I (getitem manifest key) I.
Proof.
  intros s Hs. unfold getitem.
  destruct manifest; try exact Hs.
  destruct (dict_get key members); exact Hs.
Qed.

Lemma hoare_get_vars (I : state -> Prop) : hoare I get_vars I.
Proof. intros s Hs. exact Hs. Qed.

(** The skeleton of the invariant proofs below, for a run on [registry].
    [I] is to hold at every point of the run and [J], which is stronger,
    just after an event: every event re-establishes [J], and the updates
    of the variables, which the script performs just after an event, keep
    [I].  The first part follows the script up to its report and needs
    nothing about deletions. *)
Section Invariant.

Variable registry : str.
Variables I J : state -> Prop.
Hypothesis J_sub : forall s, J s -> I s.
Hypothesis I_record :
  forall e w s, reads registry e -> I s -> J (record e w s).
Hypothesis J_add : forall image, hoare J (modify_vars (add_candidate image)) I.

Lemma inv_logging_info m : reading_message m -> hoare I (logging_info m) J.
Proof. intros Hm s Hs. now apply I_record. Qed.

Lemma inv_logging_error text : hoare I (logging_error text) J.
Proof. intros s Hs. now apply I_record. Qed.

Lemma inv_Popen argv :
  (forall p, reads registry (Spawn argv p)) -> hoare I (Popen argv) J.
Proof. intros Hr s Hs. now apply I_record. Qed.

Lemma inv_Timestamp_now : hoare I Timestamp_now J.
Proof. intros s Hs. now apply I_record. Qed.

(** An event, towards the weaker postcondition or from the stronger
    precondition. *)
Lemma inv_event_I {A} (m : M A) : hoare I m J -> hoare I m I.
Proof. intros H. apply hoare_weaken with (P' := I) (Q' := J); auto. Qed.

Lemma inv_event_J {A} (m : M A) : hoare I m J -> hoare J m J.
Proof. intros H. apply hoare_weaken with (P' := I) (Q' := J); auto. Qed.

Lemma inv_check p on_success :
  hoare I on_success I -> hoare I (check p on_success) I.
Proof.
  intros H. unfold check. destruct (returncode p =? 0)%Z; [exact H|].
  apply hoare_seq; [apply inv_event_I, inv_logging_error|].
  intros _; apply hoare_raise.
Qed.

Lemma inv_evaluate repo output : hoare I (evaluate repo output) I.
Proof.
  unfold evaluate.
  apply hoare_seq.
  { destruct (json_loads output); [apply hoare_ret | apply hoare_raise]. }
  intros manifest. apply hoare_seq; [apply hoare_getitem|].
  intros raw. apply hoare_seq.
  { destruct (to_datetime raw); [apply hoare_ret | apply hoare_raise]. }
  intros parsed.
  apply hoare_bind with (R := J); [apply inv_Timestamp_now | exact J_sub |].
  intros now. unfold classify. destruct (ge _ 90).
  - apply hoare_bind with (R := J); [apply hoare_getitem | exact J_sub |].
    intros digest.
    apply hoare_bind with (R := J);
      [apply inv_event_J, inv_logging_info; exact Logic.I | exact J_sub |].
    intros _. apply J_add.
  - intros s Hs. apply J_sub, Hs.
Qed.

Lemma inv_check_repository repo :
  hoare I (check_repository registry repo) I.
Proof.
  unfold check_repository.
  apply hoare_seq.
  { apply inv_event_I, inv_Popen. intros p. simpl. eauto 6. }
  intros p. apply hoare_seq.
  { apply inv_check.
    apply hoare_seq; [apply inv_event_I, inv_logging_info; exact Logic.I|].
    intros _. apply inv_event_I, inv_logging_info; exact Logic.I. }
  intros _. apply hoare_for_each. intros [j output] _. apply inv_evaluate.
Qed.

Lemma inv_collect : hoare I (collect registry) I.
Proof.
  unfold collect.
  repeat first
    [ apply inv_event_I, inv_logging_info; exact Logic.I
    | apply inv_event_I, inv_Popen; intros ?; simpl; now auto
    | apply inv_check
    | apply hoare_seq; [|intro] ].
  apply hoare_for_each. intros repo _. apply inv_check_repository.
Qed.

(** A dry run. *)
Lemma inv_dry_run :
  hoare I (main {| name := registry; dry_run := true |}) I.
Proof.
  unfold main, finish; simpl.
  apply hoare_seq; [apply inv_event_I, inv_logging_info; exact Logic.I|].
  intros _. apply hoare_seq; [apply inv_collect|].
  intros _. apply hoare_seq; [apply hoare_get_vars|].
  intros v. apply inv_event_I, inv_logging_info; exact Logic.I.
Qed.

(** The second part follows the deletions. *)
Hypothesis I_delete :
  forall e w s, deletes registry e -> I s -> J (record e w s).
Hypothesis J_count : hoare J (modify_vars count_deleted) I.

Lemma inv_deletion_log m : hoare I (logging_info m) J.
Proof. intros s Hs. now apply I_delete. Qed.

Lemma inv_delete_image image : hoare I (delete_image registry image) I.
Proof.
  unfold delete_image.
  apply hoare_seq; [apply inv_event_I, inv_deletion_log|].
  intros _. apply hoare_seq.
  { apply inv_event_I. intros s Hs. apply I_delete; [|exact Hs].
    now exists image. }
  intros p. apply inv_check.
  apply hoare_bind with (R := J); [apply inv_deletion_log | exact J_sub |].
  intros _. apply J_count.
Qed.

Lemma inv_delete_all : hoare I (delete_all registry) I.
Proof.
  unfold delete_all.
  apply hoare_seq; [apply hoare_get_vars|].
  intros v0. apply hoare_seq.
  { apply hoare_for_each. intros image _. apply inv_delete_image. }
  intros _. apply hoare_seq; [apply hoare_get_vars|].
  intros v1. apply inv_event_I, inv_deletion_log.
Qed.

Lemma inv_finish dry :
  hoare I (finish {| name := registry; dry_run := dry |}) I.
Proof.
  unfold finish; simpl.
  apply hoare_seq; [apply hoare_get_vars|].
  intros v. destruct dry; [apply inv_event_I, inv_logging_info; exact Logic.I|].
  apply hoare_seq; [apply inv_event_I, inv_deletion_log|].
  intros _. apply inv_delete_all.
Qed.

Lemma inv_main dry :
  hoare I (main {| name := registry; dry_run := dry |}) I.
Proof.
  unfold main; simpl.
  apply hoare_seq.
  { destruct dry;
      [apply inv_event_I, inv_logging_info; exact Logic.I | apply hoare_ret]. }
  intros _. apply hoare_seq; [apply inv_collect|].
  intros _. apply inv_finish.
Qed.

End Invariant.

End Logic.

(* ===================================================================== *)
(** ** The counter of eligible images and the list of candidates *)
(* ===================================================================== *)

Lemma step_refl v : step v v.
Proof. left. split; reflexivity. Qed.

Lemma last_cons_default {A} (l : list A) (y d : A) :
  last (y :: l) d = last l y.
Proof.
  revert y d; induction l as [|z l IH]; intros y d; [reflexivity|].
  change (last (y :: z :: l) d) with (last (z :: l) d).
  rewrite (IH z d), (IH z y). reflexivity.
Qed.

Lemma chain_snoc v l x :
  chain v (l ++ [x]) <-> chain v l /\ step (last l v) x.
Proof.
  revert v; induction l as [|y l IH]; intros v.
  - simpl. tauto.
  - change ((y :: l) ++ [x]) with (y :: (l ++ [x])).
    cbn [chain]. rewrite IH.
    rewrite last_cons_default. tauto.
Qed.

Lemma counted_add image v : counted v -> counted (add_candidate image v).
Proof.
  unfold counted, add_candidate; simpl. intros ->.
  rewrite length_app. reflexivity.
Qed.

Lemma step_add image v : step v (add_candidate image v).
Proof. right. exists image. split; reflexivity. Qed.

Section Counter.
Context {O : Outside}.

Definition snaps (s : state) : list locals := map snd (history s).

Definition counter_inv (s : state) : Prop :=
  Forall counted (snaps s) /\ counted (vars s) /\
  chain setup (snaps s) /\ step (last (snaps s) setup) (vars s).

Definition counter_sync (s : state) : Prop :=
  counter_inv s /\ last (snaps s) setup = vars s.

Lemma snaps_record e w s : snaps (record e w s) = snaps s ++ [vars s].
Proof. unfold snaps, record; simpl. now rewrite map_app. Qed.

Lemma counter_record e w s : counter_inv s -> counter_sync (record e w s).
Proof.
  intros (Hall & Hc & Hch & Hst).
  unfold counter_sync, counter_inv. rewrite snaps_record.
  change (vars (record e w s)) with (vars s).
  rewrite last_last.
  repeat split; auto using step_refl.
  - apply Forall_app. split; [assumption | now constructor].
  - apply chain_snoc. now split.
Qed.

Lemma counter_add image :
  hoare counter_sync (modify_vars (add_candidate image)) counter_inv.
Proof.
  intros s ((Hall & Hc & Hch & Hst) & Hsync).
  unfold counter_inv, modify_vars; simpl.
  change (snaps {| world := world s; vars := add_candidate image (vars s);
                   history := history s |}) with (snaps s).
  repeat split; auto using counted_add.
  rewrite Hsync. apply step_add.
Qed.

Lemma counter_count :
  hoare counter_sync (modify_vars count_deleted) counter_inv.
Proof.
  intros s ((Hall & Hc & Hch & Hst) & Hsync).
  unfold counter_inv, modify_vars; simpl.
  change (snaps {| world := world s; vars := count_deleted (vars s);
                   history := history s |}) with (snaps s).
  repeat split; auto.
Qed.

Lemma counter_main a w : counter_inv (snd (run a w)).
Proof.
  unfold run. destruct a as [registry dry].
  apply (@inv_main O registry counter_inv counter_sync).
  - intros s H. apply H.
  - intros e w0 s _. apply counter_record.
  - apply counter_add.
  - intros e w0 s _. apply counter_record.
  - apply counter_count.
  - unfold counter_inv, initial, snaps; simpl.
    repeat split; auto using step_refl.
Qed.

End Counter.

(** C8.  The variables start at zero and the empty list; at every event of
    a run and at its end, the eligible-image counter is the length of the
    candidate list; and from each of these points to the next, either both
    are unchanged or one identifier was appended and the counter went up
    by one. *)
Theorem eligible_counter_is_length :
  forall (O : Outside) (a : args) (w : World),
    let s := snd (run a w) in
    images_to_be_deleted_number (vars (initial w)) = 0 /\
    images_to_be_deleted_digest (vars (initial w)) = [] /\
    Forall (fun ev => counted (snd ev)) (history s) /\
    counted (vars s) /\
    chain (vars (initial w)) (map snd (history s) ++ [vars s]).
Proof.
  intros O a w s.
  destruct (counter_main a w) as (Hall & Hc & Hch & Hst).
  fold s in Hall, Hc, Hch, Hst.
  repeat split; auto.
  - unfold snaps in Hall. rewrite Forall_map in Hall. exact Hall.
  - apply chain_snoc. split; assumption.
Qed.

(* ===================================================================== *)
(** ** The retention decision *)
(* ===================================================================== *)

Lemma ge_spec (diff : option Z) (n : Z) :
  ge diff n = true <-> exists d, diff = Some d /\ (n <= d)%Z.
Proof.
  destruct diff as [d|]; simpl.
  - rewrite Z.leb_le. split.
    + intros H. now exists d.
    + intros (d' & E & H). now inversion E; subst.
  - split; [discriminate | intros (d & E & _); discriminate].
Qed.

(** What [evaluate] does once the manifest is parsed: read the clock,
    compute the age, decide. *)
Lemma evaluate_parsed {O : Outside} (repo output : str) (s : state)
      (members : list (str * json)) (raw : json) (parsed : datetime) :
  json_loads output = Some (JObj members) ->
  dict_get (lit "timestamp") members = Some raw ->
  to_datetime raw = Some parsed ->
  evaluate repo output s =
  classify repo (JObj members) (age_days (fst (clock (world s))) parsed)
    (record (Now (fst (clock (world s)))) (snd (clock (world s))) s).
Proof.
  intros Hj Ht Hp. unfold evaluate, bind, getitem.
  rewrite Hj. cbn [ret]. rewrite Ht. cbn [ret]. rewrite Hp. reflexivity.
Qed.

(** C1.  A manifest that is evaluated (its text parses to an object with
    a timestamp pandas accepts and a digest) is added to the candidates if
    and only if its age in days is at least 90: then its qualified id
    [repo@digest] is appended, once, and the counter of eligible images
    goes up by one; otherwise the variables are left as they were. *)
Theorem candidate_iff_ninety_days_old :
  forall (O : Outside) (repo output : str) (s : state)
         (members : list (str * json)) (raw digest : json) (parsed : datetime),
    json_loads output = Some (JObj members) ->
    dict_get (lit "timestamp") members = Some raw ->
    to_datetime raw = Some parsed ->
    dict_get (lit "digest") members = Some digest ->
    let diff := age_days (fst (clock (world s))) parsed in
    let image := repo ++ lit "@" ++ fmt digest in
    let s' := snd (evaluate repo output s) in
    fst (evaluate repo output s) = Ok tt /\
    (ge diff 90 = true <-> exists d, diff = Some d /\ (90 <= d)%Z) /\
    (ge diff 90 = true ->
       images_to_be_deleted_digest (vars s') =
         images_to_be_deleted_digest (vars s) ++ [image] /\
       images_to_be_deleted_number (vars s') =
         images_to_be_deleted_number (vars s) + 1 /\
       deleted_images_total (vars s') = deleted_images_total (vars s)) /\
    (ge diff 90 = false -> vars s' = vars s).
Proof.
  intros O repo output s members raw digest parsed Hj Ht Hp Hd diff image s'.
  subst s'. rewrite (evaluate_parsed repo output s Hj Ht Hp).
  fold diff. unfold classify, bind, getitem. rewrite Hd. cbn [ret].
  split; [|split; [apply ge_spec|]].
  - destruct (ge diff 90); reflexivity.
  - split; intros E; rewrite E; simpl; auto.
Qed.


(* ===================================================================== *)
(** ** The repository enumerator *)
(* ===================================================================== *)

Lemma strip_prefix_char (c d : ascii) (s : str) :
  strip_prefix [c] (d :: s) = if Ascii.eqb c d then Some s else None.
Proof. reflexivity. Qed.

Lemma partition_char_absent (c : ascii) (s : str) :
  ~ In c s -> partition [c] s = None.
Proof.
  induction s as [|d s IH]; intros H; [reflexivity|].
  cbn [partition]. rewrite strip_prefix_char.
  destruct (Ascii.eqb_spec c d) as [->|Hne].
  - exfalso. apply H. now left.
  - rewrite IH; [reflexivity|]. intros Hin. apply H. now right.
Qed.

Lemma partition_char_first (c : ascii) (seg rest : str) :
  ~ In c seg -> partition [c] (seg ++ c :: rest) = Some (seg, rest).
Proof.
  induction seg as [|d seg IH]; intros H.
  - cbn [app partition]. rewrite strip_prefix_char, Ascii.eqb_refl. reflexivity.
  - change ((d :: seg) ++ c :: rest) with (d :: (seg ++ c :: rest)).
    cbn [partition]. rewrite strip_prefix_char.
    destruct (Ascii.eqb_spec c d) as [->|Hne].
    + exfalso. apply H. now left.
    + rewrite IH; [reflexivity|]. intros Hin. apply H. now right.
Qed.

Lemma split_lines (c : ascii) (segs : list str) (rest : str) :
  Forall (fun seg => ~ In c seg) segs -> ~ In c rest ->
  split [c] (lines c segs ++ rest) = segs ++ [rest].
Proof.
  intros Hsegs Hrest. induction Hsegs as [|seg segs Hseg _ IH].
  - cbn [lines map concat app]. rewrite split_eq by discriminate.
    now rewrite partition_char_absent.
  - unfold lines. cbn [map concat]. fold (lines c segs).
    rewrite <- !app_assoc. cbn [app].
    rewrite split_eq by discriminate.
    rewrite partition_char_first by assumption.
    rewrite IH. reflexivity.
Qed.

(** Every text is a sequence of closed lines followed by a last, open
    segment (empty when the text ends with [c]). *)
Lemma lines_decompose (c : ascii) (output : str) :
  exists segs rest,
    output = lines c segs ++ rest /\
    Forall (fun seg => ~ In c seg) segs /\ ~ In c rest.
Proof.
  induction output as [|d output (segs & rest & E & Hsegs & Hrest)].
  - exists [], []. split; [reflexivity | split; [constructor | intros []]].
  - destruct (Ascii.eqb_spec c d) as [<-|Hne].
    + exists ([] :: segs), rest. subst output.
      split; [reflexivity | split; [|assumption]].
      constructor; [intros [] | assumption].
    + destruct segs as [|seg segs].
      * exists [], (d :: rest). subst output.
        split; [reflexivity | split; [constructor|]].
        intros [H|H]; [now apply Hne | now apply Hrest].
      * exists ((d :: seg) :: segs), rest. subst output.
        inversion Hsegs as [|? ? Hseg Hsegs']; subst.
        split; [reflexivity | split; [|assumption]].
        constructor; [|assumption].
        intros [H|H]; [now apply Hne | now apply Hseg].
Qed.

(** C9.  The repository enumerator cuts the listing at the newlines and
    drops the final segment: a listing whose lines all end with a newline
    gives exactly its lines, the empty listing gives no repository, and a
    listing that ends with a name without a newline loses that name.
    Every output has this shape. *)
Theorem repos_of_drops_the_final_segment :
  forall (names : list str) (final : str),
    Forall (fun n => ~ In newline n) names -> ~ In newline final ->
    repos_of (lines newline names ++ final) = names /\
    repos_of (lines newline names) = names /\
    repos_of [] = [] /\
    repos_of (lines newline names ++ final) <> names ++ [final] /\
    (forall output, exists names' final',
        output = lines newline names' ++ final' /\
        Forall (fun n => ~ In newline n) names' /\ ~ In newline final').
Proof.
  intros names final Hnames Hfinal.
  assert (E : forall l r, Forall (fun n => ~ In newline n) l -> ~ In newline r ->
                          repos_of (lines newline l ++ r) = l).
  { intros l r Hl Hr. unfold repos_of, slice_to_m1.
    rewrite split_lines by assumption. apply removelast_last. }
  split; [now apply E|].
  split; [rewrite <- (app_nil_r (lines newline names)); apply E; auto|].
  split; [reflexivity|].
  split; [|intros output; apply lines_decompose].
  rewrite E by assumption. intros H.
  apply (f_equal (@length str)) in H. rewrite length_app in H. simpl in H. lia.
Qed.

(* ===================================================================== *)
(** ** Fail fast *)
(* ===================================================================== *)

(** An [az] call that ended with a non-zero return code. *)
Definition failed (e : event) : bool :=
  match e with
  | Spawn _ p => negb (returncode p =? 0)%Z
  | _ => false
  end.

(** No call has failed. *)
Definition quiet (h : list (event * locals)) : Prop :=
  Forall (fun ev => failed (fst ev) = false) h.

Section FailFast.
Context {O : Outside}.

(** The run stopped at a failed call: that call and the log of its error
    text are the last two events, nothing failed before, and the exception
    carries the error text. *)
Definition aborted {A} (r : result A) (s : state) : Prop :=
  exists pre argv p,
    history s = pre ++ [(Spawn argv p, vars s); (Log (ERROR (stderr p)), vars s)] /\
    quiet pre /\ returncode p <> 0%Z /\ r = Raised (AzureError (stderr p)).

Definition ff_post {A} (r : result A) (s : state) : Prop :=
  match r with
  | Ok _ => quiet (history s)
  | Raised _ => quiet (history s) \/ aborted r s
  end.

(** [ff m]: while no call has failed, [m] either fails none or stops at the
    first that does. *)
Definition ff {A} (m : M A) : Prop :=
  forall s, quiet (history s) -> ff_post (fst (m s)) (snd (m s)).

Lemma ff_ret {A} (a : A) : ff (ret a).
Proof. intros s H. exact H. Qed.

Lemma ff_raise {A} (e : exn) : ff (@raise O A e).
Proof. intros s H. left. exact H. Qed.

Lemma ff_bind {A B} (m : M A) (k : A -> M B) :
  ff m -> (forall a, ff (k a)) -> ff (bind m k).
Proof.
  intros Hm Hk s Hs. unfold bind. specialize (Hm s Hs).
  destruct (m s) as [[a|e] s']; simpl in *.
  - apply Hk, Hm.
  - destruct Hm as [Hq | (pre & argv & p & Hh & Hpre & Hrc & Hr)].
    + now left.
    + right. exists pre, argv, p. repeat split; auto.
      inversion Hr; reflexivity.
Qed.

Lemma ff_for_each {A} (l : list A) (body : A -> M unit) :
  (forall x, ff (body x)) -> ff (for_each l body).
Proof.
  intros Hbody. induction l as [|x l IH]; simpl.
  - apply ff_ret.
  - apply ff_bind; [apply Hbody | intros _; apply IH].
Qed.

Lemma quiet_record e w s :
  failed e = false -> quiet (history s) -> quiet (history (record e w s)).
Proof.
  intros He Hs. unfold record, quiet; simpl.
  apply Forall_app. split; [exact Hs | now constructor].
Qed.

Lemma ff_logging_info m : ff (logging_info m).
Proof. intros s Hs. now apply quiet_record. Qed.

Lemma ff_Timestamp_now : ff Timestamp_now.
Proof. intros s Hs. now apply quiet_record. Qed.

Lemma ff_getitem manifest key : ff (getitem manifest key).
Proof.
  unfold getitem. destruct manifest; try apply ff_raise.
  destruct (dict_get key members); [apply ff_ret | apply ff_raise].
Qed.

Lemma ff_get_vars : ff get_vars.
Proof. intros s Hs. exact Hs. Qed.

Lemma ff_modify_vars f : ff (modify_vars f).
Proof. intros s Hs. exact Hs. Qed.

Lemma bind_Popen {B} argv (k : proc -> M B) (s : state) :
  (p <- Popen argv ;; k p) s =
  k (fst (spawn (world s) argv))
    (record (Spawn argv (fst (spawn (world s) argv)))
            (snd (spawn (world s) argv)) s).
Proof. reflexivity. Qed.

(** A call followed by its test: the heart of the matter. *)
Lemma ff_call argv (on_success : proc -> M unit) :
  (forall p, ff (on_success p)) ->
  ff (p <- Popen argv ;; check p (on_success p)).
Proof.
  intros Hok s Hs. rewrite bind_Popen.
  set (p := fst (spawn (world s) argv)).
  set (s1 := record (Spawn argv p) (snd (spawn (world s) argv)) s).
  unfold check. destruct (returncode p =? 0)%Z eqn:Hrc.
  - apply Hok.
    apply quiet_record; [|exact Hs]. simpl. fold p. now rewrite Hrc.
  - cbn. right. exists (history s), argv, p.
    split; [|split; [exact Hs | split]].
    + subst s1. unfold record; simpl. now rewrite <- app_assoc.
    + intros E. rewrite E in Hrc. discriminate.
    + reflexivity.
Qed.

Lemma ff_call_then {B} argv (on_success : proc -> M unit) (k : proc -> M B) :
  (forall p, ff (on_success p)) -> (forall p, ff (k p)) ->
  ff (p <- Popen argv ;; check p (on_success p) ;; k p).
Proof.
  intros Hok Hk s Hs. rewrite bind_Popen.
  set (p := fst (spawn (world s) argv)).
  set (s1 := record (Spawn argv p) (snd (spawn (world s) argv)) s).
  unfold check. destruct (returncode p =? 0)%Z eqn:Hrc.
  - apply (@ff_bind _ _ (on_success p) (fun _ => k p) (Hok p) (fun _ => Hk p)).
    apply quiet_record; [|exact Hs]. simpl. fold p. now rewrite Hrc.
  - cbn. right. exists (history s), argv, p.
    split; [|split; [exact Hs | split]].
    + subst s1. unfold record; simpl. now rewrite <- app_assoc.
    + intros E. rewrite E in Hrc. discriminate.
    + reflexivity.
Qed.

Lemma ff_evaluate repo output : ff (evaluate repo output).
Proof.
  unfold evaluate.
  apply ff_bind.
  { destruct (json_loads output); [apply ff_ret | apply ff_raise]. }
  intros manifest. apply ff_bind; [apply ff_getitem|].
  intros raw. apply ff_bind.
  { destruct (to_datetime raw); [apply ff_ret | apply ff_raise]. }
  intros parsed. apply ff_bind; [apply ff_Timestamp_now|].
  intros now. unfold classify. destruct (ge _ 90); [|apply ff_ret].
  apply ff_bind; [apply ff_getitem|].
  intros digest. apply ff_bind; [apply ff_logging_info|].
  intros _. apply ff_modify_vars.
Qed.

Lemma ff_check_repository registry repo : ff (check_repository registry repo).
Proof.
  unfold check_repository.
  apply (ff_call_then (az_show_manifests registry repo)
           (fun p => logging_info (MsgPulled repo) ;;
                     logging_info (MsgTotalManifests repo
                                     (length (outputs_of (stdout p)))))).
  - intros p. apply ff_bind; [apply ff_logging_info|].
    intros _. apply ff_logging_info.
  - intros p. apply ff_for_each. intros [j output]. apply ff_evaluate.
Qed.

Lemma ff_collect registry : ff (collect registry).
Proof.
  unfold collect.
  apply ff_bind; [apply ff_logging_info | intros _].
  apply (ff_call_then az_login (fun _ => logging_info MsgLoggedIntoAzure));
    [intros p; apply ff_logging_info | intros _].
  apply ff_bind; [apply ff_logging_info | intros _].
  apply (ff_call_then (az_acr_login registry)
           (fun _ => logging_info (MsgLoggedIntoACR registry)));
    [intros p; apply ff_logging_info | intros _].
  apply ff_bind; [apply ff_logging_info | intros _].
  apply (ff_call_then (az_repository_list registry)
           (fun p => logging_info (MsgFetched registry) ;;
                     logging_info (MsgTotalRepos (length (repos_of (stdout p)))))).
  - intros p. apply ff_bind; [apply ff_logging_info|].
    intros _. apply ff_logging_info.
  - intros p. apply ff_bind; [apply ff_logging_info | intros _].
    apply ff_for_each. intros repo. apply ff_check_repository.
Qed.

Lemma ff_delete_image registry image : ff (delete_image registry image).
Proof.
  unfold delete_image.
  apply ff_bind; [apply ff_logging_info | intros _].
  apply (ff_call (az_delete registry image)
           (fun _ => logging_info (MsgDeleted image) ;; modify_vars count_deleted)).
  intros p. apply ff_bind; [apply ff_logging_info|].
  intros _. apply ff_modify_vars.
Qed.

Lemma ff_main a : ff (main a).
Proof.
  unfold main.
  apply ff_bind.
  { destruct (dry_run a); [apply ff_logging_info | apply ff_ret]. }
  intros _. apply ff_bind; [apply ff_collect | intros _].
  unfold finish. apply ff_bind; [apply ff_get_vars | intros v].
  destruct (dry_run a); [apply ff_logging_info|].
  apply ff_bind; [apply ff_logging_info | intros _].
  unfold delete_all. apply ff_bind; [apply ff_get_vars | intros v0].
  apply ff_bind.
  { apply ff_for_each. intros image. apply ff_delete_image. }
  intros _. apply ff_bind; [apply ff_get_vars | intros v1].
  apply ff_logging_info.
Qed.

End FailFast.

(** Every event of a run on a registry is a log line, a clock reading or
    one of the five [az] operations on that registry. *)
Lemma issued_main {O : Outside} (a : args) (w : World) :
  Forall (fun ev => issued (name a) (fst ev)) (history (snd (run a w))).
Proof.
  unfold run. destruct a as [registry dry]. cbn [name].
  set (I := fun s : state => Forall (fun ev => issued registry (fst ev)) (history s)).
  apply (@inv_main O registry I I); subst I; cbn beta.
  - intros s Hs. exact Hs.
  - intros e w0 s He Hs. unfold record; simpl.
    apply Forall_app. split; [exact Hs|]. constructor; [now left | constructor].
  - intros image s Hs. exact Hs.
  - intros e w0 s He Hs. unfold record; simpl.
    apply Forall_app. split; [exact Hs|]. constructor; [now right | constructor].
  - intros s Hs. exact Hs.
  - constructor.
Qed.

Lemma quiet_nth_error (h : list (event * locals)) i argv p v :
  quiet h -> nth_error h i = Some (Spawn argv p, v) -> returncode p = 0%Z.
Proof.
  intros Hq Hn. apply nth_error_In in Hn.
  unfold quiet in Hq. rewrite Forall_forall in Hq.
  specialize (Hq _ Hn). simpl in Hq.
  apply negb_false_iff in Hq. now apply Z.eqb_eq.
Qed.


(* ===================================================================== *)
(** ** The history is only written *)
(* ===================================================================== *)

Section Ghost.
Context {O : Outside}.

(** The state [s] with the events [h] put before its own. *)
Definition prepend (h : list (event * locals)) (s : state) : state :=
  {| world := world s; vars := vars s; history := h ++ history s |}.

(** [ghost m]: [m] never reads the history; started with more events
    behind it, it does the same and leaves them where they were. *)
Definition ghost {A} (m : M A) : Prop :=
  forall h s, m (prepend h s) = (fst (m s), prepend h (snd (m s))).

Lemma ghost_ret {A} (a : A) : ghost (ret a).
Proof. intros h s. reflexivity. Qed.

Lemma ghost_raise {A} (e : exn) : ghost (@raise O A e).
Proof. intros h s. reflexivity. Qed.

Lemma ghost_bind {A B} (m : M A) (k : A -> M B) :
  ghost m -> (forall a, ghost (k a)) -> ghost (bind m k).
Proof.
  intros Hm Hk h s. unfold bind. rewrite Hm.
  destruct (m s) as [[a|e] s']; cbn [fst snd]; [apply Hk | reflexivity].
Qed.

Lemma ghost_for_each {A} (l : list A) (body : A -> M unit) :
  (forall x, ghost (body x)) -> ghost (for_each l body).
Proof.
  intros Hbody. induction l as [|x l IH]; simpl.
  - apply ghost_ret.
  - apply ghost_bind; [apply Hbody | intros _; apply IH].
Qed.

Lemma record_prepend e w h s :
  record e w (prepend h s) = prepend h (record e w s).
Proof. unfold record, prepend; simpl. now rewrite app_assoc. Qed.

Lemma ghost_logging_info m : ghost (logging_info m).
Proof. intros h s. unfold logging_info. now rewrite record_prepend. Qed.

Lemma ghost_logging_error text : ghost (logging_error text).
Proof. intros h s. unfold logging_error. now rewrite record_prepend. Qed.

Lemma ghost_Popen argv : ghost (Popen argv).
Proof. intros h s. unfold Popen. cbn [fst snd]. now rewrite record_prepend. Qed.

Lemma ghost_Timestamp_now : ghost Timestamp_now.
Proof.
  intros h s. unfold Timestamp_now. cbn [fst snd]. now rewrite record_prepend.
Qed.

Lemma ghost_getitem manifest key : ghost (getitem manifest key).
Proof.
  unfold getitem. destruct manifest; try apply ghost_raise.
  destruct (dict_get key members); [apply ghost_ret | apply ghost_raise].
Qed.

Lemma ghost_modify_vars f : ghost (modify_vars f).
Proof. intros h s. reflexivity. Qed.

Lemma ghost_check p on_success : ghost on_success -> ghost (check p on_success).
Proof.
  intros H. unfold check. destruct (returncode p =? 0)%Z; [exact H|].
  apply ghost_bind; [apply ghost_logging_error | intros _; apply ghost_raise].
Qed.

Lemma ghost_evaluate repo output : ghost (evaluate repo output).
Proof.
  unfold evaluate.
  apply ghost_bind.
  { destruct (json_loads output); [apply ghost_ret | apply ghost_raise]. }
  intros manifest. apply ghost_bind; [apply ghost_getitem|].
  intros raw. apply ghost_bind.
  { destruct (to_datetime raw); [apply ghost_ret | apply ghost_raise]. }
  intros parsed. apply ghost_bind; [apply ghost_Timestamp_now|].
  intros now. unfold classify. destruct (ge _ 90); [|apply ghost_ret].
  apply ghost_bind; [apply ghost_getitem|].
  intros digest. apply ghost_bind; [apply ghost_logging_info|].
  intros _. apply ghost_modify_vars.
Qed.

Lemma ghost_check_repository registry repo :
  ghost (check_repository registry repo).
Proof.
  unfold check_repository.
  apply ghost_bind; [apply ghost_Popen | intros p].
  apply ghost_bind.
  { apply ghost_check. apply ghost_bind; [apply ghost_logging_info|].
    intros _. apply ghost_logging_info. }
  intros _. apply ghost_for_each. intros [j output]. apply ghost_evaluate.
Qed.

Lemma ghost_collect registry : ghost (collect registry).
Proof.
  unfold collect.
  repeat first
    [ apply ghost_logging_info
    | apply ghost_Popen
    | apply ghost_check
    | apply ghost_bind; [|intro] ].
  apply ghost_for_each. intros repo. apply ghost_check_repository.
Qed.

End Ghost.

(* ===================================================================== *)
(** ** Dry runs *)
(* ===================================================================== *)

Lemma reads_not_delete (registry : str) (e : event) :
  reads registry e -> is_delete e = false.
Proof.
  destruct e as [r|argv p|t]; try (intros _; reflexivity).
  simpl. intros [->|[->|[->|[repo ->]]]]; reflexivity.
Qed.

Section DryRun.
Context {O : Outside}.

(** No delete call so far, and nothing counted as deleted. *)
Definition untouched (s : state) : Prop :=
  Forall (fun ev => is_delete (fst ev) = false /\
                    deleted_images_total (snd ev) = 0) (history s) /\
  deleted_images_total (vars s) = 0.

Lemma untouched_record registry e w s :
  reads registry e -> untouched s -> untouched (record e w s).
Proof.
  intros He (Hh & Hv). split; [|exact Hv].
  unfold record; simpl. apply Forall_app. split; [exact Hh|].
  constructor; [|constructor]. split; [|exact Hv].
  eapply reads_not_delete, He.
Qed.

Lemma untouched_add image :
  hoare untouched (modify_vars (add_candidate image)) untouched.
Proof. intros s (Hh & Hv). split; assumption. Qed.

Lemma untouched_collect registry : hoare untouched (collect registry) untouched.
Proof.
  apply (@inv_collect O registry untouched untouched); auto.
  - intros e w s. apply untouched_record.
  - apply untouched_add.
Qed.

Lemma untouched_dry_run registry w :
  untouched (snd (run {| name := registry; dry_run := true |} w)).
Proof.
  unfold run.
  apply (@inv_dry_run O registry untouched untouched); auto.
  - intros e w0 s. apply untouched_record.
  - apply untouched_add.
  - split; [constructor | reflexivity].
Qed.

(** Every event of a dry run is one of the reading steps. *)
Lemma reading_dry_run registry w :
  Forall (fun ev => reads registry (fst ev))
         (history (snd (run {| name := registry; dry_run := true |} w))).
Proof.
  unfold run.
  set (I := fun s : state => Forall (fun ev => reads registry (fst ev)) (history s)).
  apply (@inv_dry_run O registry I I); subst I; cbn beta.
  - auto.
  - intros e w0 s He Hs. unfold record; simpl.
    apply Forall_app. split; [exact Hs | now constructor].
  - intros image s Hs. exact Hs.
  - constructor.
Qed.

(** A dry run, spelled out: the banner, the reading steps, the report. *)
Lemma dry_run_eq registry w :
  run {| name := registry; dry_run := true |} w =
  let read := collect registry (initial w) in
  let banner := [(Log (INFO MsgDryRun), setup)] in
  match fst read with
  | Ok _ =>
      (Ok tt,
       record
         (Log (INFO (MsgEligible (images_to_be_deleted_number (vars (snd read))))))
         (world (snd read)) (prepend banner (snd read)))
  | Raised e => (Raised e, prepend banner (snd read))
  end.
Proof.
  unfold run, main. cbn [dry_run name].
  change ((logging_info MsgDryRun ;; collect registry ;;
           finish {| name := registry; dry_run := true |}) (initial w))
    with ((collect registry ;; finish {| name := registry; dry_run := true |})
            (prepend [(Log (INFO MsgDryRun), setup)] (initial w))).
  unfold bind at 1. rewrite ghost_collect.
  cbv zeta. destruct (fst (collect registry (initial w))); reflexivity.
Qed.

(** Whatever follows the reading steps only adds events. *)
Lemma finish_extends a s :
  exists rest, history (snd (finish a s)) = history s ++ rest.
Proof.
  destruct a as [registry dry].
  set (I := fun s' : state => exists rest, history s' = history s ++ rest).
  apply (@inv_finish O registry I I); subst I; cbn beta.
  - auto.
  - intros e w s' _ (rest & E). exists (rest ++ [(e, vars s')]).
    unfold record; simpl. rewrite E. now rewrite app_assoc.
  - intros e w s' _ (rest & E). exists (rest ++ [(e, vars s')]).
    unfold record; simpl. rewrite E. now rewrite app_assoc.
  - intros s' H. exact H.
  - exists []. now rewrite app_nil_r.
Qed.

Lemma live_run_eq registry w :
  run {| name := registry; dry_run := false |} w =
  let read := collect registry (initial w) in
  match fst read with
  | Ok _ => finish {| name := registry; dry_run := false |} (snd read)
  | Raised e => (Raised e, snd read)
  end.
Proof.
  unfold run, main. cbn [dry_run name]. unfold bind, ret. cbv zeta.
  destruct (collect registry (initial w)) as [[[]|e] s]; reflexivity.
Qed.

End DryRun.

(** C4.  A dry run performs the reading steps (the two logins, the
    repository listing, the manifest listings and the evaluation) exactly
    as a live run does, then reports the number of eligible images and
    stops: every event of a dry run is an event of the reading steps or
    that report, none is a delete call or a log line of a deletion,
    whatever the number of candidates, and the counter of deleted images
    is 0 throughout. *)
Theorem dry_run_reads_and_never_deletes :
  forall (O : Outside) (registry : str) (w : World),
    let dry := run {| name := registry; dry_run := true |} w in
    let live := run {| name := registry; dry_run := false |} w in
    let read := collect registry (initial w) in
    (Forall (fun ev => is_delete (fst ev) = false /\
                       deleted_images_total (snd ev) = 0)
            (history (snd dry)) /\
     deleted_images_total (vars (snd dry)) = 0) /\
    Forall (fun ev => reads registry (fst ev)) (history (snd dry)) /\
    (fst dry = fst read /\ vars (snd dry) = vars (snd read) /\
     world (snd dry) = world (snd read)) /\
    history (snd dry) =
      (Log (INFO MsgDryRun), setup) :: history (snd read) ++
      match fst read with
      | Ok _ =>
          [(Log (INFO (MsgEligible
                         (images_to_be_deleted_number (vars (snd read))))),
            vars (snd read))]
      | Raised _ => []
      end /\
    (exists rest, history (snd live) = history (snd read) ++ rest).
Proof.
  intros O registry w dry live read.
  split; [exact (untouched_dry_run registry w)|].
  split; [exact (reading_dry_run registry w)|].
  subst dry live. rewrite dry_run_eq, live_run_eq. cbv zeta. fold read.
  destruct (fst read) as [[]|e]; cbn [fst snd].
  - repeat split; try reflexivity. apply finish_extends.
  - repeat split; try reflexivity.
    + simpl. now rewrite app_nil_r.
    + exists []. now rewrite app_nil_r.
Qed.

(* ===================================================================== *)
(** ** Live runs *)
(* ===================================================================== *)

Lemma delete_calls_app h1 h2 :
  delete_calls (h1 ++ h2) = delete_calls h1 ++ delete_calls h2.
Proof. apply flat_map_app. Qed.

Lemma delete_calls_none h :
  Forall (fun ev => is_delete (fst ev) = false /\
                    deleted_images_total (snd ev) = 0) h ->
  delete_calls h = [].
Proof.
  induction 1 as [|[e v] h [He _] _ IH]; [reflexivity|].
  simpl in *. rewrite IH, app_nil_r.
  destruct e; try reflexivity. simpl in He. now rewrite He.
Qed.

Section LiveRun.
Context {O : Outside}.

(** One deletion, spelled out. *)
Lemma delete_image_eq registry image s :
  delete_image registry image s =
  let s1 := record (Log (INFO (MsgDeleting image))) (world s) s in
  let reply := spawn (world s1) (az_delete registry image) in
  let s2 := record (Spawn (az_delete registry image) (fst reply)) (snd reply) s1 in
  if (returncode (fst reply) =? 0)%Z then
    let s3 := record (Log (INFO (MsgDeleted image))) (world s2) s2 in
    (Ok tt, {| world := world s3; vars := count_deleted (vars s3);
               history := history s3 |})
  else
    (Raised (AzureError (stderr (fst reply))),
     record (Log (ERROR (stderr (fst reply)))) (world s2) s2).
Proof.
  unfold delete_image, bind, logging_info, Popen, check. cbn [fst snd].
  cbv zeta.
  destruct (returncode _ =? 0)%Z; reflexivity.
Qed.

(** The deletion loop: the calls it makes are the delete calls for a prefix
    of the list, complete when the loop ends normally and ending with the
    failed call otherwise. *)
Lemma delete_loop registry l : forall s,
  Forall (fun ev => within (snd ev)) (history s) ->
  deleted_images_total (vars s) + length l <= images_to_be_deleted_number (vars s) ->
  let r := for_each l (delete_image registry) s in
  Forall (fun ev => within (snd ev)) (history (snd r)) /\
  images_to_be_deleted_digest (vars (snd r)) = images_to_be_deleted_digest (vars s) /\
  images_to_be_deleted_number (vars (snd r)) = images_to_be_deleted_number (vars s) /\
  exists k, k <= length l /\
    delete_calls (history (snd r)) =
      delete_calls (history s) ++ map (az_delete registry) (firstn k l) /\
    match fst r with
    | Ok _ => k = length l /\
              deleted_images_total (vars (snd r)) = deleted_images_total (vars s) + k
    | Raised _ => 1 <= k /\
              deleted_images_total (vars (snd r)) + 1 = deleted_images_total (vars s) + k
    end.
Proof.
  induction l as [|image l IH]; intros s Hh Hb r.
  - subst r. cbn. repeat split; auto. exists 0. cbn.
    rewrite app_nil_r. repeat split; auto.
  - set (s1 := record (Log (INFO (MsgDeleting image))) (world s) s).
    set (reply := spawn (world s1) (az_delete registry image)).
    set (s2 := record (Spawn (az_delete registry image) (fst reply)) (snd reply) s1).
    set (s3 := record (Log (INFO (MsgDeleted image))) (world s2) s2).
    set (s4 := {| world := world s3; vars := count_deleted (vars s3);
                  history := history s3 |}).
    assert (Er : r = if (returncode (fst reply) =? 0)%Z
                     then for_each l (delete_image registry) s4
                     else (Raised (AzureError (stderr (fst reply))),
                           record (Log (ERROR (stderr (fst reply)))) (world s2) s2)).
    { subst r. cbn [for_each]. unfold bind. rewrite delete_image_eq.
      cbv zeta. fold s1. fold reply. fold s2. fold s3. fold s4.
      destruct (returncode (fst reply) =? 0)%Z; reflexivity. }
    clearbody r. subst r.
    assert (Hw : within (vars s)) by (unfold within; simpl in Hb; lia).
    assert (Hh2 : Forall (fun ev => within (snd ev)) (history s2)).
    { subst s2 s1. unfold record; cbn [history vars].
      repeat (apply Forall_app; split); auto. }
    assert (Hc2 : delete_calls (history s2) =
                  delete_calls (history s) ++ [az_delete registry image]).
    { subst s2 s1. unfold record; cbn [history vars].
      rewrite !delete_calls_app. cbn. now rewrite app_nil_r. }
    destruct (returncode (fst reply) =? 0)%Z.
    + assert (Hh4 : Forall (fun ev => within (snd ev)) (history s4)).
      { subst s4 s3. unfold record; cbn [history vars].
        apply Forall_app; split; auto. }
      assert (Hb4 : deleted_images_total (vars s4) + length l <=
                    images_to_be_deleted_number (vars s4)).
      { subst s4 s3 s2 s1. cbn in *. lia. }
      destruct (IH s4 Hh4 Hb4) as (H1 & H2 & H3 & k & Hk & Hcalls & Hres).
      split; [exact H1|]. split; [rewrite H2; reflexivity|].
      split; [rewrite H3; reflexivity|].
      exists (S k). split; [simpl; lia|]. split.
      * rewrite Hcalls. subst s4 s3. unfold record; cbn [history vars].
        rewrite delete_calls_app, Hc2. cbn. rewrite app_nil_r, <- app_assoc.
        reflexivity.
      * destruct (fst (for_each l (delete_image registry) s4)).
        -- destruct Hres as [-> Hd]. split; [reflexivity|].
           replace (deleted_images_total (vars s4))
             with (deleted_images_total (vars s) + 1) in Hd by reflexivity.
           cbn [length]. lia.
        -- destruct Hres as [Hk1 Hd]. split; [lia|].
           replace (deleted_images_total (vars s4))
             with (deleted_images_total (vars s) + 1) in Hd by reflexivity.
           lia.
    + cbn [fst snd]. unfold record at 1 2 3 4; cbn [history vars].
      split; [apply Forall_app; split; auto|].
      split; [reflexivity|]. split; [reflexivity|].
      exists 1. split; [simpl; lia|]. split.
      * rewrite delete_calls_app, Hc2. cbn. now rewrite app_nil_r.
      * split; [lia | reflexivity].
Qed.

(** The state the deletions start from: nothing deleted yet and the
    counter equal to the number of candidates. *)
Definition ready (s : state) : Prop :=
  untouched s /\ counted (vars s).

Lemma ready_collect registry w : ready (snd (collect registry (initial w))).
Proof.
  apply (@inv_collect O registry ready ready); auto.
  - intros e w0 s He [Hu Hc]. split; [|exact Hc].
    eapply untouched_record; eassumption.
  - intros image s [Hu Hc]. split; [exact Hu | now apply counted_add].
  - split; [split; [constructor | reflexivity] | reflexivity].
Qed.

Lemma untouched_within s :
  untouched s -> Forall (fun ev => within (snd ev)) (history s) /\ within (vars s).
Proof.
  intros [Hh Hv]. split.
  - eapply Forall_impl; [|exact Hh]. intros ev [_ H]. unfold within. lia.
  - unfold within. lia.
Qed.

End LiveRun.

(** The end of a live run, spelled out. *)
Lemma finish_live_eq {O : Outside} registry s :
  finish {| name := registry; dry_run := false |} s =
  let s1 := record (Log (INFO (MsgToBeDeleted
                                 (images_to_be_deleted_number (vars s)))))
                   (world s) s in
  let r := for_each (images_to_be_deleted_digest (vars s1))
                    (delete_image registry) s1 in
  match fst r with
  | Ok _ =>
      (Ok tt,
       record (Log (INFO (MsgNumberDeleted (deleted_images_total (vars (snd r))))))
              (world (snd r)) (snd r))
  | Raised e => (Raised e, snd r)
  end.
Proof.
  unfold finish, delete_all, bind, get_vars, logging_info.
  cbn [dry_run name fst snd]. cbv zeta.
  destruct (for_each _ _ _) as [[[]|e] s']; reflexivity.
Qed.

(** C5, amended.  In a live run the delete operation is called for the
    candidates in the order they were collected, once each, up to and
    including the first candidate whose deletion fails; when the run
    completes, that is once for every candidate, and the counter of deleted
    images equals the counter of candidates.  At every event and at the
    end, the counter of deleted images is at most the counter of
    candidates. *)
Theorem live_run_deletes_in_collection_order :
  forall (O : Outside) (registry : str) (w : World),
    let r := run {| name := registry; dry_run := false |} w in
    let v := vars (snd r) in
    (exists k,
        delete_calls (history (snd r)) =
          map (az_delete registry) (firstn k (images_to_be_deleted_digest v)) /\
        deleted_images_total v <= k <= deleted_images_total v + 1) /\
    (fst r = Ok tt ->
       delete_calls (history (snd r)) =
         map (az_delete registry) (images_to_be_deleted_digest v) /\
       deleted_images_total v = images_to_be_deleted_number v) /\
    Forall (fun ev => within (snd ev)) (history (snd r)) /\
    within v.
Proof.
  intros O registry w r v. subst v r. rewrite live_run_eq. cbv zeta.
  pose proof (ready_collect registry w) as [Hu Hc].
  set (s := snd (collect registry (initial w))) in *.
  pose proof (untouched_within Hu) as [Hh Hw].
  pose proof (delete_calls_none (proj1 Hu)) as Hnone.
  destruct (fst (collect registry (initial w))) as [[]|e]; cbn [fst snd].
  2:{ split; [|split; [discriminate | split; assumption]].
      exists 0. rewrite Hnone. destruct Hu as [_ Hd]. rewrite Hd.
      split; [reflexivity | lia]. }
  rewrite finish_live_eq. cbv zeta.
  set (s1 := record (Log (INFO (MsgToBeDeleted
                                  (images_to_be_deleted_number (vars s)))))
                    (world s) s).
  assert (Hh1 : Forall (fun ev => within (snd ev)) (history s1)).
  { subst s1. unfold record; cbn [history]. apply Forall_app; split; auto. }
  assert (Hb1 : deleted_images_total (vars s1) +
                length (images_to_be_deleted_digest (vars s1)) <=
                images_to_be_deleted_number (vars s1)).
  { subst s1. cbn [vars record]. destruct Hu as [_ Hd]. rewrite Hd.
    unfold counted in Hc. lia. }
  assert (Hc1 : delete_calls (history s1) = []).
  { subst s1. unfold record; cbn [history].
    rewrite delete_calls_app, Hnone. reflexivity. }
  assert (Hd1 : deleted_images_total (vars s1) = 0) by apply Hu.
  assert (Hn1 : images_to_be_deleted_number (vars s1) =
                length (images_to_be_deleted_digest (vars s1))) by apply Hc.
  destruct (delete_loop registry (images_to_be_deleted_digest (vars s1)) s1 Hh1 Hb1)
    as (H1 & H2 & H3 & k & Hk & Hcalls & Hres).
  rewrite Hc1 in Hcalls. cbn [app] in Hcalls.
  set (l := images_to_be_deleted_digest (vars s1)) in *.
  destruct (fst (for_each l (delete_image registry) s1)) as [[]|e];
    cbn [fst snd].
  - destruct Hres as [-> Hd].
    unfold record; cbn [history vars].
    rewrite delete_calls_app, Hcalls, H2. cbn. rewrite app_nil_r.
    rewrite firstn_all.
    assert (Hwf : within (vars (snd (for_each l (delete_image registry) s1)))).
    { unfold within. rewrite Hd, H3. lia. }
    repeat split; auto.
    + exists (length l). rewrite firstn_all. split; [reflexivity | lia].
    + rewrite Hd, H3. lia.
    + apply Forall_app; split; auto.
  - destruct Hres as [Hk1 Hd].
    repeat split; auto; try discriminate.
    + exists k. rewrite H2. split; [exact Hcalls | lia].
    + unfold within. lia.
Qed.

(* ===================================================================== *)
(** ** An empty registry *)
(* ===================================================================== *)

(** C7.  When the two logins succeed and the repository listing succeeds
    and yields no repository, the run completes, dry or live, with no
    candidate, nothing deleted and no delete call; the listing is the last
    thing asked of the outside. *)
Theorem no_repositories_no_candidates :
  forall (O : Outside) (a : args) (w : World),
    let login := spawn w az_login in
    let acr := spawn (snd login) (az_acr_login (name a)) in
    let listing := spawn (snd acr) (az_repository_list (name a)) in
    returncode (fst login) = 0%Z ->
    returncode (fst acr) = 0%Z ->
    returncode (fst listing) = 0%Z ->
    repos_of (stdout (fst listing)) = [] ->
    let s := snd (run a w) in
    fst (run a w) = Ok tt /\
    images_to_be_deleted_number (vars s) = 0 /\
    images_to_be_deleted_digest (vars s) = [] /\
    deleted_images_total (vars s) = 0 /\
    Forall (fun ev => is_delete (fst ev) = false) (history s) /\
    world s = snd listing.
Proof.
  intros O [registry dry] w login acr listing H1 H2 H3 Hrepos s.
  subst s login acr listing. cbn [name] in *.
  unfold run, main, collect, finish, delete_all.
  unfold bind, logging_info, Popen, check, logging_error, raise, ret, get_vars.
  cbn [name dry_run fst snd world vars history record initial].
  destruct dry;
    cbn [fst snd world vars history record initial];
    rewrite H1; cbn [Z.eqb fst snd world vars history record initial];
    rewrite H2; cbn [Z.eqb fst snd world vars history record initial];
    rewrite H3; cbn [Z.eqb fst snd world vars history record initial];
    rewrite Hrepos;
    cbn [for_each ret fst snd world vars history record initial setup length
         images_to_be_deleted_digest];
    (repeat split; try reflexivity);
    repeat (apply Forall_app; split); repeat constructor.
Qed.

(* ===================================================================== *)
(** ** The manifest collector *)
(* ===================================================================== *)

(** C2.  A repository without manifests: [az] prints the empty array, the
    collector cuts it into one empty piece instead of none, logs a total of
    one manifest, and [json.loads] is called on the empty text.  With a
    parser that rejects the empty text, as [json.loads] does, the run
    stops there with [JSONDecodeError]. *)
Theorem empty_manifest_listing_raises :
  forall (O : Outside) (registry repo : str) (s : state),
    json_loads [] = None ->
    let reply := spawn (world s) (az_show_manifests registry repo) in
    returncode (fst reply) = 0%Z ->
    stdout (fst reply) = listing [] ->
    pieces (outputs_of (stdout (fst reply))) = [[]] /\
    fst (check_repository registry repo s) = Raised JSONDecodeError /\
    history (snd (check_repository registry repo s)) =
      history s ++
      [(Spawn (az_show_manifests registry repo) (fst reply), vars s);
       (Log (INFO (MsgPulled repo)), vars s);
       (Log (INFO (MsgTotalManifests repo 1)), vars s)].
Proof.
  intros O registry repo s Hj reply Hrc Hout.
  assert (E : outputs_of (listing []) = [[]]) by reflexivity.
  unfold check_repository. rewrite bind_Popen. fold reply.
  rewrite Hout, E. unfold check. rewrite Hrc.
  split; [reflexivity|].
  unfold bind, logging_info, evaluate. cbn. unfold bind. rewrite Hj. cbn.
  split; [reflexivity|].
  rewrite <- !app_assoc. reflexivity.
Qed.

(* --------------------------------------------------------------------- *)
(** *** Cutting a text at a separator *)

Lemma strip_prefix_spec (p s r : str) :
  strip_prefix p s = Some r <-> s = p ++ r.
Proof.
  revert s; induction p as [|a p IH]; intros s; simpl.
  - split; [now inversion 1 | now intros ->].
  - destruct s as [|b s]; [split; discriminate|].
    destruct (Ascii.eqb_spec a b) as [->|Hne].
    + rewrite IH. split; [now intros -> | now inversion 1].
    + split; [discriminate | intros E; injection E as E1 E2; congruence].
Qed.

(** A separator that is no prefix of a text at least as long is no prefix
    of any extension of it. *)
Lemma strip_prefix_none_app (p u t : str) :
  length p <= length u -> strip_prefix p u = None ->
  strip_prefix p (u ++ t) = None.
Proof.
  revert u; induction p as [|a p IH]; intros u Hlen H; [discriminate|].
  destruct u as [|b u]; [simpl in Hlen; lia|].
  simpl in *. destruct (Ascii.eqb a b); [|reflexivity].
  apply IH; [lia | exact H].
Qed.

Lemma partition_spec (sep s b a : str) :
  partition sep s = Some (b, a) -> s = b ++ sep ++ a.
Proof.
  revert b a; induction s as [|c s IH]; intros b a H; simpl in H.
  - destruct (strip_prefix sep []) eqn:E; [|discriminate].
    inversion H; subst. now apply strip_prefix_spec in E.
  - destruct (strip_prefix sep (c :: s)) eqn:E.
    + inversion H; subst. now apply strip_prefix_spec in E.
    + destruct (partition sep s) as [[b' a']|] eqn:P; [|discriminate].
      inversion H; subst. simpl. f_equal. now apply IH.
Qed.

Lemma contains_false (sub s : str) :
  contains sub s = false <-> partition sub s = None.
Proof.
  unfold contains. destruct (partition sub s); split; congruence.
Qed.

Lemma partition_none_cons (sep : str) (c : ascii) (s : str) :
  partition sep (c :: s) = None ->
  strip_prefix sep (c :: s) = None /\ partition sep s = None.
Proof.
  cbn [partition]. destruct (strip_prefix sep (c :: s)); [discriminate|].
  destruct (partition sep s) as [[b a]|]; [discriminate|]. now split.
Qed.

(** The first occurrence of the separator: where it is written, when it
    does not occur earlier. *)
Lemma partition_first (sep b rest : str) :
  sep <> [] ->
  contains sep (b ++ removelast sep) = false ->
  partition sep (b ++ sep ++ rest) = Some (b, rest).
Proof.
  intros Hsep. induction b as [|c b IH]; intros H.
  - cbn [app]. destruct (sep ++ rest) eqn:E.
    + destruct sep; [contradiction | discriminate].
    + rewrite <- E. clear E.
      destruct sep as [|x sep]; [contradiction|].
      cbn [partition app]. change (x :: sep ++ rest) with ((x :: sep) ++ rest).
      rewrite strip_prefix_app. reflexivity.
  - apply contains_false in H.
    change ((c :: b) ++ removelast sep) with (c :: (b ++ removelast sep)) in H.
    apply partition_none_cons in H. destruct H as [Hp Hrest].
    change ((c :: b) ++ sep ++ rest) with (c :: (b ++ sep ++ rest)).
    cbn [partition].
    assert (E : c :: b ++ sep ++ rest =
                (c :: b ++ removelast sep) ++ [last sep "000"%char] ++ rest).
    { rewrite (app_removelast_last "000"%char Hsep) at 1.
      cbn [app]. now rewrite <- !app_assoc. }
    rewrite E at 1.
    rewrite strip_prefix_none_app; [| |exact Hp].
    + rewrite IH; [reflexivity|]. now apply contains_false.
    + cbn [length]. rewrite length_app.
      rewrite (app_removelast_last "000"%char Hsep) at 1.
      rewrite length_app. simpl. lia.
Qed.

Lemma split_absent (sep s : str) :
  sep <> [] -> contains sep s = false -> split sep s = [s].
Proof.
  intros Hsep H. rewrite split_eq by assumption.
  apply contains_false in H. now rewrite H.
Qed.

Lemma split_first (sep b rest : str) :
  sep <> [] ->
  contains sep (b ++ removelast sep) = false ->
  split sep (b ++ sep ++ rest) = b :: split sep rest.
Proof.
  intros Hsep H. rewrite split_eq by assumption.
  now rewrite partition_first.
Qed.

(** The characters of the pieces are characters of the text. *)
Lemma split_fuel_chars (sep : str) (n : nat) :
  forall s piece c, In piece (split_fuel n sep s) -> In c piece -> In c s.
Proof.
  induction n as [|n IH]; intros s piece c Hp Hc; simpl in Hp.
  - destruct Hp as [<-|[]]. exact Hc.
  - destruct (partition sep s) as [[b a]|] eqn:P.
    + apply partition_spec in P. subst s.
      destruct Hp as [<-|Hp].
      * apply in_or_app. now left.
      * apply in_or_app. right. apply in_or_app. right. eapply IH; eassumption.
    + destruct Hp as [<-|[]]. exact Hc.
Qed.

Lemma split_chars (sep s piece : str) (c : ascii) :
  In piece (split sep s) -> In c piece -> In c s.
Proof. apply split_fuel_chars. Qed.

(* --------------------------------------------------------------------- *)
(** *** Removing a character *)

Lemma join_nil (l : list str) : join [] l = concat l.
Proof.
  induction l as [|p l IH]; [reflexivity|].
  destruct l as [|q l]; [simpl; now rewrite app_nil_r|].
  change (join [] (p :: q :: l)) with (p ++ [] ++ join [] (q :: l)).
  rewrite IH. reflexivity.
Qed.

Definition is_not (c : ascii) (x : ascii) : bool := negb (Ascii.eqb x c).

Lemma filter_absent (c : ascii) (s : str) :
  ~ In c s -> filter (is_not c) s = s.
Proof.
  induction s as [|d s IH]; intros H; [reflexivity|].
  simpl. unfold is_not at 1.
  destruct (Ascii.eqb_spec d c) as [->|Hne].
  - exfalso. apply H. now left.
  - simpl. rewrite IH; [reflexivity|]. intros Hin. apply H. now right.
Qed.

Lemma filter_lines (c : ascii) (segs : list str) :
  Forall (fun seg => ~ In c seg) segs ->
  filter (is_not c) (lines c segs) = concat segs.
Proof.
  induction 1 as [|seg segs Hseg _ IH]; [reflexivity|].
  unfold lines in *. cbn [map concat]. rewrite !filter_app, IH.
  rewrite filter_absent by assumption.
  simpl. unfold is_not. rewrite Ascii.eqb_refl. simpl. now rewrite app_nil_r.
Qed.

(** [s.replace(c, "")] removes every occurrence of the character. *)
Lemma replace_char (c : ascii) (s : str) :
  replace [c] [] s = filter (is_not c) s.
Proof.
  destruct (lines_decompose c s) as (segs & rest & -> & Hsegs & Hrest).
  unfold replace. rewrite split_lines by assumption.
  rewrite join_nil, concat_app. simpl. rewrite app_nil_r.
  rewrite filter_app, filter_lines by assumption.
  now rewrite filter_absent.
Qed.

(* --------------------------------------------------------------------- *)
(** *** What the removal of line breaks and spaces leaves of a listing *)

(** The characters that [replace("\n", "")] and [replace(" ", "")] keep. *)
Definition keep (c : ascii) : bool := is_not newline c && is_not space c.

Lemma squeeze_filter (s : str) :
  replace [space] [] (replace [newline] [] s) = filter keep s.
Proof.
  rewrite !replace_char. induction s as [|c s IH]; [reflexivity|].
  simpl. unfold keep at 1.
  destruct (is_not newline c); simpl; [|exact IH].
  destruct (is_not space c); simpl; [now rewrite IH | exact IH].
Qed.

Lemma filter_join (f : ascii -> bool) (sep : str) (l : list str) :
  filter f (join sep l) = join (filter f sep) (map (filter f) l).
Proof.
  induction l as [|p l IH]; [reflexivity|].
  destruct l as [|q l]; [reflexivity|].
  change (join sep (p :: q :: l)) with (p ++ sep ++ join sep (q :: l)).
  rewrite !filter_app, IH. reflexivity.
Qed.

Lemma keep_newline_indent (level : nat) : filter keep (newline_indent level) = [].
Proof.
  unfold newline_indent. simpl.
  induction (level + (level + 0)) as [|n IH]; [reflexivity | exact IH].
Qed.

Lemma keep_escape_char (c : ascii) :
  c <> space -> filter keep (escape_char c) = escape_char c.
Proof.
  intros H.
  destruct c as [[] [] [] [] [] [] [] []];
    try reflexivity; exfalso; apply H; reflexivity.
Qed.

Lemma has_space_false (s : str) : has_space s = false <-> ~ In space s.
Proof.
  unfold has_space. split.
  - intros H Hin. apply not_true_iff_false in H. apply H.
    apply existsb_exists. exists space. split; [exact Hin | apply Ascii.eqb_refl].
  - intros H. apply not_true_iff_false. intros E.
    apply existsb_exists in E. destruct E as (x & Hx & Ex).
    apply Ascii.eqb_eq in Ex. subst x. contradiction.
Qed.

Lemma keep_dumps_string (s : str) :
  has_space s = false -> filter keep (dumps_string s) = dumps_string s.
Proof.
  intros H. apply has_space_false in H.
  unfold dumps_string. cbn [filter]. change (keep quote) with true. cbv iota.
  f_equal. rewrite filter_app. f_equal.
  induction s as [|c s IH]; [reflexivity|].
  cbn [flat_map]. rewrite filter_app, IH by (intros Hin; apply H; now right).
  rewrite keep_escape_char; [reflexivity|].
  intros ->. apply H. now left.
Qed.

Lemma keep_num_char (c : ascii) : is_num_char c = true -> keep c = true.
Proof.
  intros H. unfold keep, is_not.
  destruct (Ascii.eqb_spec c newline) as [->|_]; [discriminate H|].
  destruct (Ascii.eqb_spec c space) as [->|_]; [discriminate H|].
  reflexivity.
Qed.

Lemma keep_literal (literal : str) :
  forallb is_num_char literal = true -> filter keep literal = literal.
Proof.
  induction literal as [|c l IH]; [reflexivity|].
  cbn [forallb filter]. intros H. apply andb_true_iff in H. destruct H as [Hc Hl].
  rewrite (keep_num_char c Hc), IH by assumption. reflexivity.
Qed.

(** Without its line breaks and spaces, the printed layout of a value
    whose strings have no space is its compact text. *)
Lemma keep_pretty (v : json) :
  numbers_ok v = true -> no_space v = true ->
  forall level, filter keep (pretty level v) = dumps v.
Proof.
  induction v as [| b | literal | s | items IH | members IH]
    using json_induction; intros Hn Hs level.
  - reflexivity.
  - destruct b; reflexivity.
  - simpl. now apply keep_literal.
  - simpl. apply keep_dumps_string. simpl in Hs.
    now apply negb_true_iff in Hs.
  - destruct items as [|x items]; [reflexivity|].
    cbn [pretty dumps].
    rewrite !filter_app, filter_join, filter_app, !keep_newline_indent.
    rewrite app_nil_r. cbn [app].
    change (filter keep (lit "[")) with (lit "[").
    change (filter keep (lit ",")) with (lit ",").
    change (filter keep (lit "]")) with (lit "]").
    do 2 f_equal. f_equal.
    rewrite map_map. apply map_ext_Forall.
    cbn [numbers_ok no_space] in Hn, Hs.
    rewrite forallb_forall in Hn, Hs. rewrite Forall_forall in IH |- *.
    intros y Hy. apply IH; auto.
  - destruct members as [|kv members]; [reflexivity|].
    cbn [pretty dumps].
    rewrite !filter_app, filter_join, filter_app, !keep_newline_indent.
    rewrite app_nil_r. cbn [app].
    change (filter keep (lit "{")) with (lit "{").
    change (filter keep (lit ",")) with (lit ",").
    change (filter keep (lit "}")) with (lit "}").
    do 2 f_equal. f_equal.
    rewrite map_map. apply map_ext_Forall.
    cbn [numbers_ok no_space] in Hn, Hs.
    rewrite forallb_forall in Hn, Hs. rewrite Forall_forall in IH |- *.
    intros y Hy. specialize (Hs y Hy). apply andb_true_iff in Hs.
    destruct Hs as [Hk Hv]. apply negb_true_iff in Hk.
    rewrite !filter_app, keep_dumps_string by assumption.
    rewrite IH by auto. reflexivity.
Qed.

(* --------------------------------------------------------------------- *)
(** *** Cutting the array back into its objects *)

(** The compact text of an object without its closing brace. *)
Definition open_text (members : list (str * json)) : str :=
  removelast (dumps (JObj members)).

Lemma dumps_object (members : list (str * json)) :
  dumps (JObj members) = open_text members ++ lit "}".
Proof.
  unfold open_text. cbn [dumps]. rewrite !app_assoc.
  change (lit "}") with ["}"%char]. now rewrite removelast_last.
Qed.

Lemma slice_brackets (x : str) : slice_1_m1 (lit "[" ++ x ++ lit "]") = x.
Proof.
  unfold slice_1_m1. change (lit "]") with ["]"%char].
  cbn [lit list_ascii_of_string app tl]. apply removelast_last.
Qed.

(** The pieces of [b1}, ... ,bn}] cut at ["},"]. *)
Lemma split_objects (b : str) (bs : list str) :
  Forall (fun o => contains (lit "},") (o ++ lit "}") = false) (b :: bs) ->
  split (lit "},") (join (lit ",") (map (fun o => o ++ lit "}") (b :: bs))) =
  removelast (b :: bs) ++ [last (b :: bs) [] ++ lit "}"].
Proof.
  revert b; induction bs as [|b' bs IH]; intros b H.
  - inversion H; subst. cbn [map join removelast last app].
    apply split_absent; [discriminate | assumption].
  - inversion H as [|? ? Hb Hrest]; subst.
    change (join (lit ",") (map (fun o => o ++ lit "}") (b :: b' :: bs)))
      with ((b ++ lit "}") ++ lit "," ++
            join (lit ",") (map (fun o => o ++ lit "}") (b' :: bs))).
    rewrite <- app_assoc.
    change (lit "}" ++ lit "," ++ ?x) with (lit "}," ++ x).
    rewrite split_first; [|discriminate | exact Hb].
    rewrite IH by assumption. reflexivity.
Qed.

Lemma restore_pieces (k n : nat) (l : list str) (x : str) :
  k + length l + 1 = n ->
  map (fun '(j, output) => restore n j output)
      (combine (seq k (length (l ++ [x]))) (l ++ [x])) =
  map (fun o => o ++ lit "}") l ++ [x].
Proof.
  revert k; induction l as [|o l IH]; intros k Hn.
  - cbn. unfold restore.
    assert (E : (k <? n - 1) = false) by (apply Nat.ltb_ge; simpl in Hn; lia).
    now rewrite E.
  - cbn [app length seq combine map]. f_equal.
    + unfold restore.
      assert (E : (k <? n - 1) = true) by (apply Nat.ltb_lt; simpl in Hn; lia).
      now rewrite E.
    + apply IH. simpl in Hn. lia.
Qed.

(** Lines 132-134 give every piece but the last its brace back. *)
Lemma pieces_snoc (l : list str) (x : str) :
  pieces (l ++ [x]) = map (fun o => o ++ lit "}") l ++ [x].
Proof.
  unfold pieces, enumerate. apply restore_pieces.
  rewrite length_app. simpl. lia.
Qed.

Lemma for_each_pieces {O : Outside} (repo : str) (outputs : list str) (s : state) :
  for_each (enumerate outputs)
    (fun '(j, output) => evaluate repo (restore (length outputs) j output)) s =
  for_each (pieces outputs) (evaluate repo) s.
Proof.
  unfold pieces. generalize (length outputs) as n.
  generalize (enumerate outputs) as l. intros l n. revert s.
  induction l as [|[j o] l IH]; intros s; [reflexivity|].
  cbn [for_each map]. unfold bind.
  destruct (evaluate repo (restore n j o) s) as [[[]|e] s']; [apply IH | reflexivity].
Qed.

(** No piece contains a space or a line break. *)
Lemma pieces_squeezed (output piece : str) :
  In piece (pieces (outputs_of output)) ->
  ~ In space piece /\ ~ In newline piece.
Proof.
  assert (K : forall c, keep c = false ->
                        forall o, In o (outputs_of output) -> ~ In c o).
  { intros c Hc o Ho Hin. unfold outputs_of in Ho.
    rewrite squeeze_filter in Ho.
    pose proof (split_chars _ _ _ c Ho Hin) as H.
    unfold slice_1_m1 in H.
    assert (H' : In c (filter keep output)).
    { destruct (filter keep output) as [|d l]; [destruct H|].
      right. cbn [tl] in H.
      destruct l as [|e l] using rev_ind; [destruct H|].
      rewrite removelast_last in H. apply in_or_app. now left. }
    apply filter_In in H'. destruct H' as [_ H']. congruence. }
  unfold pieces. intros Hp. apply in_map_iff in Hp.
  destruct Hp as ([j o] & <- & Hjo).
  apply in_combine_r in Hjo.
  unfold restore. destruct (j <? _).
  - split; intros Hin; apply in_app_or in Hin;
      (destruct Hin as [Hin|[Hin|[]]]; [|discriminate Hin]).
    + now apply (K space eq_refl o Hjo).
    + now apply (K newline eq_refl o Hjo).
  - split; [now apply (K space eq_refl) | now apply (K newline eq_refl)].
Qed.

(** A string with a space gives a text with a space. *)
Lemma dumps_string_space (s : str) :
  has_space s = true -> In space (dumps_string s).
Proof.
  intros H. apply existsb_exists in H. destruct H as (x & Hx & E).
  apply Ascii.eqb_eq in E. subst x.
  unfold dumps_string. right. apply in_or_app. left.
  apply in_flat_map. exists space. split; [exact Hx | now left].
Qed.

Lemma In_join (c : ascii) (sep p : str) (l : list str) :
  In p l -> In c p -> In c (join sep l).
Proof.
  induction l as [|q l IH]; intros Hp Hc; [destruct Hp|].
  destruct l as [|q' l].
  - destruct Hp as [->|[]]. exact Hc.
  - change (join sep (q :: q' :: l)) with (q ++ sep ++ join sep (q' :: l)).
    destruct Hp as [->|Hp].
    + apply in_or_app. now left.
    + apply in_or_app. right. apply in_or_app. right. now apply IH.
Qed.

Lemma dumps_space (v : json) : no_space v = false -> In space (dumps v).
Proof.
  induction v as [| b | literal | s | items IH | members IH]
    using json_induction; cbn [no_space]; intros H; try discriminate.
  - apply dumps_string_space. now apply negb_false_iff in H.
  - cbn [dumps]. apply in_or_app. right. apply in_or_app. left.
    apply not_true_iff_false in H.
    assert (E : exists x, In x items /\ no_space x = false).
    { clear IH. induction items as [|x items IHi].
      - exfalso. now apply H.
      - destruct (no_space x) eqn:Ex.
        + destruct IHi as (y & Hy & Ey).
          * intros Hall. apply H. simpl. now rewrite Ex.
          * exists y. split; [now right | exact Ey].
        + exists x. split; [now left | exact Ex]. }
    destruct E as (x & Hx & Ex). rewrite Forall_forall in IH.
    apply In_join with (p := dumps x); [now apply in_map | now apply IH].
  - cbn [dumps]. apply in_or_app. right. apply in_or_app. left.
    apply not_true_iff_false in H.
    assert (E : exists kv, In kv members /\
                           (has_space (fst kv) = true \/ no_space (snd kv) = false)).
    { clear IH. induction members as [|kv members IHm].
      - exfalso. now apply H.
      - destruct (has_space (fst kv)) eqn:Ek.
        + exists kv. split; [now left | now left].
        + destruct (no_space (snd kv)) eqn:Ev.
          * destruct IHm as (y & Hy & Ey).
            -- intros Hall. apply H. simpl. now rewrite Ek, Ev.
            -- exists y. split; [now right | exact Ey].
          * exists kv. split; [now left | now right]. }
    destruct E as (kv & Hkv & Ekv). rewrite Forall_forall in IH.
    apply In_join with (p := dumps_string (fst kv) ++ lit ":" ++ dumps (snd kv)).
    + apply in_map_iff. now exists kv.
    + apply in_or_app. destruct Ekv as [Ek|Ev].
      * left. now apply dumps_string_space.
      * right. apply in_or_app. right. now apply IH.
Qed.

Lemma well_formed_numbers_ok (v : json) :
  well_formed v = true -> numbers_ok v = true.
Proof.
  induction v as [| b | literal | s | items IH | members IH]
    using json_induction; cbn [well_formed numbers_ok]; intros H; auto.
  - now apply andb_true_iff in H.
  - rewrite forallb_forall in *. rewrite Forall_forall in IH. auto.
  - rewrite forallb_forall in *. rewrite Forall_forall in IH. auto.
Qed.

(** The pieces of a printed array of objects whose texts are free of
    spaces and of ["},"]. *)
Lemma pieces_of_listing (first : list (str * json))
      (others : list (list (str * json))) :
  let objects := map JObj (first :: others) in
  Forall (fun v => well_formed v = true /\ no_space v = true /\
                   contains (lit "},") (dumps v) = false) objects ->
  pieces (outputs_of (listing objects)) = map dumps objects.
Proof.
  intros objects H.
  assert (Hn : numbers_ok (JArr objects) = true).
  { cbn [numbers_ok]. apply forallb_forall. rewrite Forall_forall in H.
    intros v Hv. now apply well_formed_numbers_ok, H. }
  assert (Hs : no_space (JArr objects) = true).
  { cbn [no_space]. apply forallb_forall. rewrite Forall_forall in H.
    intros v Hv. now apply H. }
  unfold outputs_of, listing. rewrite squeeze_filter, filter_app.
  rewrite (keep_pretty _ Hn Hs). change (filter keep [newline]) with (@nil ascii).
  rewrite app_nil_r. cbn [dumps]. rewrite slice_brackets.
  assert (E : map dumps objects =
              map (fun o => o ++ lit "}") (map open_text (first :: others))).
  { subst objects. rewrite !map_map. apply map_ext. intros m. apply dumps_object. }
  rewrite E.
  change (map open_text (first :: others))
    with (open_text first :: map open_text others).
  rewrite split_objects.
  - rewrite pieces_snoc.
    rewrite (app_removelast_last (l := open_text first :: map open_text others) [])
      at 3 by discriminate.
    rewrite map_app. reflexivity.
  - change (open_text first :: map open_text others)
      with (map open_text (first :: others)).
    apply Forall_map. subst objects. rewrite Forall_map in H.
    eapply Forall_impl; [|exact H]. intros m (_ & _ & Hc).
    now rewrite <- dumps_object.
Qed.

(* ===================================================================== *)
(** ** The reference parser reads compact texts back *)
(* ===================================================================== *)

Module RoundTrip.
Import Ref.

Lemma parse_value_eq (f : nat) (s : str) :
  parse_value (S f) s =
  match skip_ws s with
  | [] => None
  | c :: r =>
      if Ascii.eqb c quote then
        match parse_chars r with
        | Some (x, r') => Some (JStr x, r')
        | None => None
        end
      else if Ascii.eqb c "["%char then
        match skip_ws r with
        | c' :: r' =>
            if Ascii.eqb c' "]"%char then Some (JArr [], r')
            else
              match parse_items f r with
              | Some (items, r'') => Some (JArr items, r'')
              | None => None
              end
        | [] => None
        end
      else if Ascii.eqb c "{"%char then
        match skip_ws r with
        | c' :: r' =>
            if Ascii.eqb c' "}"%char then Some (JObj [], r')
            else
              match parse_members f r with
              | Some (members, r'') => Some (JObj members, r'')
              | None => None
              end
        | [] => None
        end
      else parse_atom (c :: r)
  end.
Proof. reflexivity. Qed.

Lemma parse_items_eq (f : nat) (s : str) :
  parse_items (S f) s =
  match parse_value f s with
  | Some (v, r) =>
      match skip_ws r with
      | c :: r' =>
          if Ascii.eqb c ","%char then
            match parse_items f r' with
            | Some (vs, r'') => Some (v :: vs, r'')
            | None => None
            end
          else if Ascii.eqb c "]"%char then Some ([v], r')
          else None
      | [] => None
      end
  | None => None
  end.
Proof. reflexivity. Qed.

Lemma parse_members_eq (f : nat) (s : str) :
  parse_members (S f) s =
  match skip_ws s with
  | q :: r0 =>
      if Ascii.eqb q quote then
        match parse_chars r0 with
        | Some (k, r1) =>
            match skip_ws r1 with
            | colon :: r2 =>
                if Ascii.eqb colon ":"%char then
                  match parse_value f r2 with
                  | Some (v, r3) =>
                      match skip_ws r3 with
                      | c :: r4 =>
                          if Ascii.eqb c ","%char then
                            match parse_members f r4 with
                            | Some (ms, r5) => Some ((k, v) :: ms, r5)
                            | None => None
                            end
                          else if Ascii.eqb c "}"%char then Some ([(k, v)], r4)
                          else None
                      | [] => None
                      end
                  | None => None
                  end
                else None
            | [] => None
            end
        | None => None
        end
      else None
  | [] => None
  end.
Proof. reflexivity. Qed.

(** One escaped character is read back as the character. *)
Lemma parse_chars_escape (c : ascii) (tail : str) :
  parse_chars (escape_char c ++ tail) = push c (parse_chars tail).
Proof.
  destruct c as [[] [] [] [] [] [] [] []]; reflexivity.
Qed.

Lemma parse_chars_dumps (s rest : str) :
  parse_chars (flat_map escape_char s ++ quote :: rest) = Some (s, rest).
Proof.
  induction s as [|c s IH]; [reflexivity|].
  cbn [flat_map]. rewrite <- app_assoc, parse_chars_escape, IH. reflexivity.
Qed.

(** What may follow a value in a compact text: nothing, a comma, or a
    closing bracket or brace. *)
Definition delimited (rest : str) : Prop :=
  match rest with
  | [] => True
  | c :: _ => is_num_char c = false /\ is_ws c = false
  end.

Lemma span_literal (literal rest : str) :
  forallb is_num_char literal = true -> delimited rest ->
  span is_num_char (literal ++ rest) = (literal, rest).
Proof.
  intros Hl Hr. induction literal as [|c l IH].
  - destruct rest as [|d rest]; [reflexivity|].
    simpl in *. destruct Hr as [-> _]. reflexivity.
  - cbn [forallb] in Hl. apply andb_true_iff in Hl. destruct Hl as [Hc Hl].
    cbn [app span]. rewrite Hc, (IH Hl). reflexivity.
Qed.


(** The fuel the parser needs for a value. *)
Fixpoint weight (v : json) : nat :=
  match v with
  | JArr items => S (fold_right (fun x acc => S (weight x + acc)) 0 items)
  | JObj members =>
      S (fold_right (fun kv acc => S (weight (snd kv) + acc)) 0 members)
  | _ => 1
  end.

(** The first character of a compact text: never white space, and the one
    the parser expects for that kind of value. *)
Definition starts (v : json) (c : ascii) : Prop :=
  is_ws c = false /\
  match v with
  | JNull => c = "n"%char
  | JBool true => c = "t"%char
  | JBool false => c = "f"%char
  | JNum _ => is_num_char c = true
  | JStr _ => c = quote
  | JArr _ => c = "["%char
  | JObj _ => c = "{"%char
  end.

Lemma num_char_not_ws (c : ascii) : is_num_char c = true -> is_ws c = false.
Proof.
  destruct c as [[] [] [] [] [] [] [] []]; try reflexivity; discriminate.
Qed.

Lemma dumps_starts (v : json) :
  well_formed v = true -> exists c t, dumps v = c :: t /\ starts v c.
Proof.
  destruct v as [| [] | literal | s | items | members]; intros H;
    try (eexists; eexists; split; [reflexivity | split; reflexivity]).
  cbn [well_formed] in H. apply andb_true_iff in H. destruct H as [Hc Hv].
  destruct literal as [|c l]; [discriminate Hv|].
  exists c, l. split; [reflexivity|].
  cbn [forallb] in Hc. apply andb_true_iff in Hc. destruct Hc as [Hc _].
  split; [now apply num_char_not_ws | exact Hc].
Qed.

Lemma skip_ws_starts (c : ascii) (t : str) :
  is_ws c = false -> skip_ws (c :: t) = c :: t.
Proof. intros H. cbn [skip_ws]. now rewrite H. Qed.

(** A number literal is read back. *)
Lemma parse_atom_number (literal rest : str) :
  forallb is_num_char literal = true -> valid_number literal = true ->
  delimited rest ->
  parse_atom (literal ++ rest) = Some (JNum literal, rest).
Proof.
  intros Hc Hv Hr. unfold parse_atom.
  destruct literal as [|c l]; [discriminate Hv|].
  assert (Hn : is_num_char c = true).
  { cbn [forallb] in Hc. now apply andb_true_iff in Hc. }
  assert (K : forall x p, is_num_char x = false ->
                          strip_prefix (x :: p) ((c :: l) ++ rest) = None).
  { intros x p Hx. cbn [app strip_prefix].
    destruct (Ascii.eqb_spec x c) as [->|_]; [congruence | reflexivity]. }
  assert (E1 : strip_prefix (lit "null") ((c :: l) ++ rest) = None)
    by (apply K; reflexivity).
  assert (E2 : strip_prefix (lit "true") ((c :: l) ++ rest) = None)
    by (apply K; reflexivity).
  assert (E3 : strip_prefix (lit "false") ((c :: l) ++ rest) = None)
    by (apply K; reflexivity).
  rewrite E1, E2, E3, span_literal by assumption. now rewrite Hv.
Qed.

(** What the induction proves of a value: enough fuel reads its compact
    text back, whatever follows. *)
Definition reads_back (v : json) : Prop :=
  forall fuel rest,
    weight v < fuel -> delimited rest ->
    parse_value fuel (dumps v ++ rest) = Some (v, rest).

Definition items_weight (items : list json) : nat :=
  fold_right (fun x acc => S (weight x + acc)) 0 items.

Definition members_weight (members : list (str * json)) : nat :=
  fold_right (fun kv acc => S (weight (snd kv) + acc)) 0 members.

Lemma delimited_comma (s : str) : delimited (","%char :: s).
Proof. split; reflexivity. Qed.

Lemma delimited_bracket (s : str) : delimited ("]"%char :: s).
Proof. split; reflexivity. Qed.

Lemma delimited_brace (s : str) : delimited ("}"%char :: s).
Proof. split; reflexivity. Qed.

Lemma parse_items_dumps (x : json) (xs : list json) :
  Forall reads_back (x :: xs) ->
  forall fuel rest,
    items_weight (x :: xs) < fuel ->
    parse_items fuel (join (lit ",") (map dumps (x :: xs)) ++ "]"%char :: rest) =
    Some (x :: xs, rest).
Proof.
  revert x; induction xs as [|y ys IH]; intros x H fuel rest Hf;
    inversion H as [|? ? Hx Hxs]; subst;
    (destruct fuel as [|f]; [inversion Hf|]); rewrite parse_items_eq.
  - cbn [map join]. cbn [items_weight fold_right] in Hf.
    rewrite (Hx f _ ltac:(lia) (delimited_bracket rest)).
    reflexivity.
  - change (join (lit ",") (map dumps (x :: y :: ys)))
      with (dumps x ++ lit "," ++ join (lit ",") (map dumps (y :: ys))).
    rewrite <- !app_assoc. cbn [lit list_ascii_of_string app].
    change (items_weight (x :: y :: ys))
      with (S (weight x + items_weight (y :: ys))) in Hf.
    rewrite (Hx f _ ltac:(lia) (delimited_comma _)).
    rewrite skip_ws_starts by reflexivity. rewrite Ascii.eqb_refl.
    change [","%char] with (lit ",").
    rewrite (IH y Hxs f rest ltac:(lia)). reflexivity.
Qed.

Definition member_text (kv : str * json) : str :=
  dumps_string (fst kv) ++ lit ":" ++ dumps (snd kv).

Lemma parse_members_dumps (kv : str * json) (kvs : list (str * json)) :
  Forall (fun m => reads_back (snd m)) (kv :: kvs) ->
  forall fuel rest,
    members_weight (kv :: kvs) < fuel ->
    parse_members fuel
      (join (lit ",") (map member_text (kv :: kvs)) ++ "}"%char :: rest) =
    Some (kv :: kvs, rest).
Proof.
  revert kv; induction kvs as [|kv' kvs IH]; intros [k v] H fuel rest Hf;
    inversion H as [|? ? Hv Hkvs]; subst; cbn [snd] in Hv;
    (destruct fuel as [|f]; [inversion Hf|]); rewrite parse_members_eq.
  - cbn [map join]. unfold member_text, dumps_string. cbn [fst snd].
    cbn [members_weight fold_right snd] in Hf.
    rewrite <- !app_assoc. cbn [app].
    rewrite skip_ws_starts by reflexivity. rewrite Ascii.eqb_refl.
    rewrite <- !app_assoc. cbn [app].
    rewrite parse_chars_dumps.
    cbn [lit list_ascii_of_string app].
    rewrite skip_ws_starts by reflexivity. rewrite Ascii.eqb_refl.
    rewrite (Hv f _ ltac:(lia) (delimited_brace rest)).
    reflexivity.
  - change (join (lit ",") (map member_text ((k, v) :: kv' :: kvs)))
      with (member_text (k, v) ++ lit "," ++
            join (lit ",") (map member_text (kv' :: kvs))).
    unfold member_text at 1, dumps_string. cbn [fst snd].
    change (members_weight ((k, v) :: kv' :: kvs))
      with (S (weight v + members_weight (kv' :: kvs))) in Hf.
    rewrite <- !app_assoc. cbn [app].
    rewrite skip_ws_starts by reflexivity. rewrite Ascii.eqb_refl.
    rewrite <- !app_assoc. cbn [app].
    rewrite parse_chars_dumps.
    cbn [lit list_ascii_of_string app].
    rewrite skip_ws_starts by reflexivity. rewrite Ascii.eqb_refl.
    rewrite (Hv f _ ltac:(lia) (delimited_comma _)).
    rewrite skip_ws_starts by reflexivity. rewrite Ascii.eqb_refl.
    change [","%char] with (lit ",").
    rewrite (IH kv' Hkvs f rest ltac:(lia)). reflexivity.
Qed.

(** Enough fuel reads the compact text of a well-formed value back. *)
Lemma parse_value_dumps (v : json) : well_formed v = true -> reads_back v.
Proof.
  induction v as [| b | literal | s | items IH | members IH]
    using json_induction; intros Hw fuel rest Hf Hr;
    (destruct fuel as [|f]; [inversion Hf|]); rewrite parse_value_eq.
  - reflexivity.
  - destruct b; reflexivity.
  - destruct (dumps_starts (JNum literal) Hw) as (c & t & E & Hws & Hc).
    cbn [dumps] in *. cbn [well_formed] in Hw.
    apply andb_true_iff in Hw. destruct Hw as [Hchars Hvalid].
    subst literal. cbn [app]. rewrite skip_ws_starts by assumption.
    destruct (Ascii.eqb_spec c quote) as [->|_]; [discriminate Hc|].
    destruct (Ascii.eqb_spec c "["%char) as [->|_]; [discriminate Hc|].
    destruct (Ascii.eqb_spec c "{"%char) as [->|_]; [discriminate Hc|].
    now apply (parse_atom_number (c :: t)).
  - cbn [dumps]. unfold dumps_string. cbn [app].
    rewrite skip_ws_starts by reflexivity. rewrite Ascii.eqb_refl.
    rewrite <- app_assoc. cbn [app]. now rewrite parse_chars_dumps.
  - destruct items as [|x xs]; [reflexivity|].
    cbn [dumps]. cbn [lit list_ascii_of_string app].
    rewrite skip_ws_starts by reflexivity.
    change (Ascii.eqb "["%char quote) with false.
    rewrite Ascii.eqb_refl. cbv iota.
    cbn [well_formed] in Hw. rewrite forallb_forall in Hw.
    assert (Hall : Forall reads_back (x :: xs)).
    { rewrite Forall_forall in IH |- *. intros y Hy. apply IH; auto. }
    destruct (dumps_starts x (Hw x (or_introl eq_refl))) as (c & t & E & Hws & Hc).
    assert (Hskip : forall tail,
               skip_ws (join (lit ",") (map dumps (x :: xs)) ++ tail) =
               join (lit ",") (map dumps (x :: xs)) ++ tail).
    { intros tail. destruct xs; cbn [map join]; rewrite E;
        cbn [app]; now apply skip_ws_starts. }
    rewrite <- app_assoc. cbn [app]. rewrite Hskip.
    assert (Hhead : exists t', join (lit ",") (map dumps (x :: xs)) ++ "]"%char :: rest = c :: t').
    { destruct xs; cbn [map join]; rewrite E; cbn [app]; eauto. }
    destruct Hhead as (t' & Ehead). rewrite Ehead at 1.
    assert (Hnb : Ascii.eqb c "]"%char = false).
    { destruct (Ascii.eqb_spec c "]"%char) as [->|_]; [|reflexivity].
      destruct x as [| [] | | | | ]; cbn in Hc; try discriminate Hc. }
    rewrite Hnb. change [","%char] with (lit ",").
    cbn [weight] in Hf. fold (items_weight (x :: xs)) in Hf.
    rewrite (@parse_items_dumps x xs Hall f rest ltac:(lia)). reflexivity.
  - destruct members as [|kv kvs]; [reflexivity|].
    change (dumps (JObj (kv :: kvs)))
      with (["{"%char] ++ join (lit ",") (map member_text (kv :: kvs)) ++ ["}"%char]).
    cbn [app]. rewrite skip_ws_starts by reflexivity.
    change (Ascii.eqb "{"%char quote) with false.
    change (Ascii.eqb "{"%char "["%char) with false.
    rewrite Ascii.eqb_refl. cbv iota.
    cbn [well_formed] in Hw. rewrite forallb_forall in Hw.
    assert (Hall : Forall (fun m => reads_back (snd m)) (kv :: kvs)).
    { rewrite Forall_forall in IH |- *. intros y Hy. apply IH; auto. }
    assert (Ehead : exists t',
               join (lit ",") (map member_text (kv :: kvs)) = quote :: t').
    { destruct kvs; cbn [map join]; unfold member_text at 1, dumps_string;
        cbn [app]; eauto. }
    destruct Ehead as (t' & Ehead).
    rewrite <- app_assoc. cbn [app].
    assert (Eskip : skip_ws (join (lit ",") (map member_text (kv :: kvs)) ++
                             "}"%char :: rest) = quote :: t' ++ "}"%char :: rest).
    { rewrite Ehead. cbn [app]. now apply skip_ws_starts. }
    rewrite Eskip.
    change (Ascii.eqb quote "}"%char) with false. cbv iota.
    cbn [weight] in Hf. fold (members_weight (kv :: kvs)) in Hf.
    rewrite (@parse_members_dumps kv kvs Hall f rest ltac:(lia)). reflexivity.
Qed.

Lemma length_join_cons (sep p : str) (q : str) (l : list str) :
  length (join sep (p :: q :: l)) =
  length p + length sep + length (join sep (q :: l)).
Proof.
  change (join sep (p :: q :: l)) with (p ++ sep ++ join sep (q :: l)).
  rewrite !length_app. lia.
Qed.

(** The fuel a value needs is at most the length of its compact text. *)
Lemma weight_le_length (v : json) :
  well_formed v = true -> weight v <= length (dumps v).
Proof.
  induction v as [| b | literal | s | items IH | members IH]
    using json_induction; intros Hw.
  - simpl. lia.
  - destruct b; simpl; lia.
  - cbn [well_formed] in Hw. apply andb_true_iff in Hw. destruct Hw as [_ Hv].
    destruct literal; [discriminate Hv | simpl; lia].
  - cbn [dumps weight]. unfold dumps_string. simpl. lia.
  - cbn [well_formed] in Hw. rewrite forallb_forall in Hw.
    cbn [dumps weight]. rewrite !length_app.
    change (length (lit "[")) with 1. change (length (lit "]")) with 1.
    fold (items_weight items).
    assert (H : items_weight items <= length (join (lit ",") (map dumps items)) + 1).
    { induction items as [|x xs IHx]; [simpl; lia|].
      inversion IH as [|? ? Hx Hxs]; subst.
      change (items_weight (x :: xs)) with (S (weight x + items_weight xs)).
      specialize (Hx (Hw x (or_introl eq_refl))).
      destruct xs as [|y ys]; [simpl; lia|].
      cbn [map]. rewrite length_join_cons.
      specialize (IHx Hxs (fun z Hz => Hw z (or_intror Hz))).
      cbn [map] in IHx. change (length (lit ",")) with 1. lia. }
    lia.
  - cbn [well_formed] in Hw. rewrite forallb_forall in Hw.
    change (dumps (JObj members))
      with (lit "{" ++ join (lit ",") (map member_text members) ++ lit "}").
    cbn [weight]. rewrite !length_app.
    change (length (lit "{")) with 1. change (length (lit "}")) with 1.
    fold (members_weight members).
    assert (H : members_weight members <=
                length (join (lit ",") (map member_text members)) + 1).
    { induction members as [|[k x] xs IHx]; [simpl; lia|].
      inversion IH as [|? ? Hx Hxs]; subst. cbn [snd] in Hx.
      change (members_weight ((k, x) :: xs))
        with (S (weight x + members_weight xs)).
      specialize (Hx (Hw (k, x) (or_introl eq_refl))).
      assert (Hm : weight x <= length (member_text (k, x))).
      { unfold member_text. cbn [fst snd]. rewrite !length_app. lia. }
      destruct xs as [|y ys]; [cbn [map join members_weight fold_right]; lia|].
      cbn [map]. rewrite length_join_cons.
      specialize (IHx Hxs (fun z Hz => Hw z (or_intror Hz))).
      cbn [map] in IHx. change (length (lit ",")) with 1. lia. }
    lia.
Qed.

(** The reference parser reads the compact text of every well-formed
    value back to that value. *)
Lemma json_loads_dumps (v : json) :
  well_formed v = true -> json_loads (dumps v) = Some v.
Proof.
  intros Hw. unfold json_loads.
  pose proof (weight_le_length v Hw) as Hlen.
  pose proof (parse_value_dumps v Hw) as H.
  specialize (H (2 * length (dumps v) + 2) [] ltac:(lia) I).
  rewrite app_nil_r in H. rewrite H. reflexivity.
Qed.

End RoundTrip.

(** C10, amended.  For a non-empty JSON array of objects, printed the way
    [az] prints it, in which no string (member name or string value)
    contains a space and the compact text of no object contains ["},"]
    (so no string contains it, and no nested object is followed by a
    further member or item), the collector's reconstruction yields exactly
    the compact texts of the array's objects, in order; each is parsed back
    to its object by the reference parser, and these are the texts
    [evaluate] receives.  For every listing whatever, no piece contains a
    space or a line break, so an object with a space in a string never
    reaches the parser as it was. *)
Theorem pieces_are_the_objects :
  forall (first : list (str * json)) (others : list (list (str * json))),
    let objects := map JObj (first :: others) in
    Forall (fun v => well_formed v = true /\ no_space v = true /\
                     contains (lit "},") (dumps v) = false) objects ->
    pieces (outputs_of (listing objects)) = map dumps objects /\
    map Ref.json_loads (pieces (outputs_of (listing objects))) =
      map Some objects /\
    (forall (O : Outside) (repo : str) (s : state),
        for_each (enumerate (outputs_of (listing objects)))
          (fun '(j, output) =>
             evaluate repo
               (restore (length (outputs_of (listing objects))) j output)) s =
        for_each (map dumps objects) (evaluate repo) s) /\
    (forall output piece,
        In piece (pieces (outputs_of output)) ->
        ~ In space piece /\ ~ In newline piece) /\
    (forall v output,
        no_space v = false -> ~ In (dumps v) (pieces (outputs_of output))).
Proof.
  intros first others objects H.
  pose proof (@pieces_of_listing first others H) as E. fold objects in E.
  split; [exact E|]. split; [|split; [|split]].
  - rewrite E, map_map. apply map_ext_Forall.
    eapply Forall_impl; [|exact H]. intros v (Hw & _ & _).
    now apply RoundTrip.json_loads_dumps.
  - intros O repo s. rewrite for_each_pieces, E. reflexivity.
  - apply pieces_squeezed.
  - intros v output Hv Hin.
    apply (proj1 (@pieces_squeezed output (dumps v) Hin)).
    now apply dumps_space.
Qed.

(* ===================================================================== *)
(** ** The theorems at work on the concrete registries *)
(* ===================================================================== *)

Import Example.

Ltac absent :=
  let H := fresh in
  intros H; cbn in H;
  repeat (destruct H as [H|H]; [discriminate H|]); exact H.

(** The 307 days old image of the scenario becomes a candidate. *)
Lemma candidate_iff_ninety_days_old_witness :
  let s := @initial utc (scenario (Ref.success [])) in
  fst (@evaluate utc app (dumps image_a) s) = Ok tt /\
  images_to_be_deleted_digest (vars (snd (@evaluate utc app (dumps image_a) s))) =
    [lit "app@sha256:a"] /\
  images_to_be_deleted_number (vars (snd (@evaluate utc app (dumps image_a) s))) = 1.
Proof.
  intros s.
  destruct (@candidate_iff_ninety_days_old utc app (dumps image_a) s
              [(lit "digest", JStr (lit "sha256:a"));
               (lit "timestamp", JStr (lit "2026-01-01T10:00:00.1234567Z"))]
              (JStr (lit "2026-01-01T10:00:00.1234567Z"))
              (JStr (lit "sha256:a"))
              (Stamp 1767261600123456700 (Some 0%Z))
              ltac:(vm_compute; reflexivity) ltac:(vm_compute; reflexivity)
              ltac:(vm_compute; reflexivity) ltac:(vm_compute; reflexivity))
    as (Hok & _ & Hyes & _).
  destruct (Hyes ltac:(vm_compute; reflexivity)) as (Hd & Hn & _).
  split; [exact Hok|]. split; [rewrite Hd | rewrite Hn]; reflexivity.
Defined.

(** A repository without manifests stops the run; the repository after
    it is never listed. *)
Lemma empty_manifest_listing_raises_witness :
  let s := @initial utc {| Ref.replies := [Ref.success (listing [])];
                           Ref.instant := noon |} in
  fst (@check_repository utc registry (lit "empty") s) = Raised JSONDecodeError /\
  fst (@run utc live empty_repository) = Raised JSONDecodeError /\
  length (Ref.replies (world (snd (@run utc live empty_repository)))) = 2.
Proof.
  intros s. split; [|split; vm_compute; reflexivity].
  apply (@empty_manifest_listing_raises utc registry (lit "empty") s);
    vm_compute; reflexivity.
Defined.


(** The scenario, live: one delete call, for the old image. *)
Lemma live_run_deletes_in_collection_order_witness :
  delete_calls (history (snd (@run utc live (scenario (Ref.success []))))) =
    [az_delete registry (lit "app@sha256:a")] /\
  deleted_images_total (vars (snd (@run utc live (scenario (Ref.success []))))) = 1.
Proof.
  destruct (@live_run_deletes_in_collection_order utc registry
              (scenario (Ref.success []))) as (_ & H & _).
  destruct (H ltac:(vm_compute; reflexivity)) as [Hc Hd].
  split; (etransitivity; [first [exact Hc | exact Hd]|]); vm_compute; reflexivity.
Defined.



(** A run that reaches the deletions with two candidates and calls delete
    once. *)
Lemma refused_delete_counterexample :
  let s := snd (@run utc live refused) in
  In (Log (INFO (MsgToBeDeleted 2))) (map fst (history s)) /\
  images_to_be_deleted_digest (vars s) = [lit "app@sha256:a"; lit "app@sha256:c"] /\
  delete_calls (history s) = [az_delete registry (lit "app@sha256:a")] /\
  delete_calls (history s) <>
    map (az_delete registry) (images_to_be_deleted_digest (vars s)).
Proof.
  cbv zeta. split; [|split; [|split]].
  - vm_compute. do 18 right. left. reflexivity.
  - vm_compute. reflexivity.
  - vm_compute. reflexivity.
  - vm_compute. discriminate.
Qed.

(** The empty registry. *)
Lemma no_repositories_no_candidates_witness :
  fst (@run utc live empty_registry) = Ok tt /\
  vars (snd (@run utc live empty_registry)) = setup.
Proof.
  destruct (@no_repositories_no_candidates utc live empty_registry
              eq_refl eq_refl eq_refl eq_refl) as (Hr & _).
  split; [exact Hr | vm_compute; reflexivity].
Defined.

(** Two listed repositories and a name without its line break. *)
Lemma repos_of_drops_the_final_segment_witness :
  repos_of (lines newline [lit "app"; lit "web"] ++ lit "tmp") =
    [lit "app"; lit "web"].
Proof.
  refine (proj1 (@repos_of_drops_the_final_segment
                   [lit "app"; lit "web"] (lit "tmp") _ _)).
  - repeat constructor; absent.
  - absent.
Defined.

(** The listing of the scenario is cut into its two manifests. *)
Lemma pieces_are_the_objects_witness :
  pieces (outputs_of (listing [image_a; image_b])) = [dumps image_a; dumps image_b] /\
  map Ref.json_loads (pieces (outputs_of (listing [image_a; image_b]))) =
    [Some image_a; Some image_b].
Proof.
  destruct (@pieces_are_the_objects
              [(lit "digest", JStr (lit "sha256:a"));
               (lit "timestamp", JStr (lit "2026-01-01T10:00:00.1234567Z"))]
              [[(lit "digest", JStr (lit "sha256:b"));
                (lit "timestamp", JStr (lit "2026-10-25T08:30:00Z"))]]
              ltac:(repeat constructor; vm_compute; reflexivity))
    as (Hp & Hj & _).
  split; [exact Hp | exact Hj].
Defined.

(** An object with a nested object, none of whose strings has a space, a
    line break or ["},"], is cut in two pieces, neither of them JSON; and
    an object with a line break in a string is handed over as it is. *)
Lemma nested_object_counterexample :
  all_strings plain nested = true /\
  pieces (outputs_of (listing [nested])) <> [dumps nested] /\
  map Ref.json_loads (pieces (outputs_of (listing [nested]))) = [None; None] /\
  all_strings (fun s => negb (contains [newline] s)) two_lines = false /\
  pieces (outputs_of (listing [two_lines])) = [dumps two_lines] /\
  Ref.json_loads (dumps two_lines) = Some two_lines.
Proof.
  split; [vm_compute; reflexivity|].
  split; [vm_compute; discriminate|].
  repeat split; vm_compute; reflexivity.
Qed.

(** The scenario, dry: one candidate, nothing deleted, no delete call. *)
Example scenario_dry_run :
  let r := @run utc dry (scenario (Ref.success [])) in
  fst r = Ok tt /\
  images_to_be_deleted_digest (vars (snd r)) = [lit "app@sha256:a"] /\
  images_to_be_deleted_number (vars (snd r)) = 1 /\
  deleted_images_total (vars (snd r)) = 0 /\
  delete_calls (history (snd r)) = [].
Proof. repeat split; vm_compute; reflexivity. Qed.

(* ===================================================================== *)
(** ** The repository enumerator, on every output *)
(* ===================================================================== *)

Lemma count_occ_lines (c : ascii) (segs : list str) :
  Forall (fun seg => ~ In c seg) segs ->
  count_occ ascii_dec (lines c segs) c = length segs.
Proof.
  induction 1 as [|seg segs Hseg _ IH]; [reflexivity|].
  unfold lines. cbn [map concat]. fold (lines c segs).
  rewrite !count_occ_app, IH.
  rewrite (proj1 (count_occ_not_In ascii_dec seg c) Hseg).
  cbn [count_occ]. destruct (ascii_dec c c); [reflexivity | contradiction].
Qed.

(** X1.  Line 101 yields one repository per newline of the listing: as
    many names as the output has newline characters, none of them with a
    newline in it, and the output is these names, each closed by a newline,
    followed by a rest without newline, which is dropped. *)
Theorem repos_of_counts_the_newlines :
  forall output : str,
    length (repos_of output) = count_occ ascii_dec output newline /\
    Forall (fun repo => ~ In newline repo) (repos_of output) /\
    exists rest,
      ~ In newline rest /\ output = lines newline (repos_of output) ++ rest.
Proof.
  intros output.
  destruct (lines_decompose newline output) as (segs & rest & E & Hsegs & Hrest).
  assert (R : repos_of output = segs).
  { rewrite E. unfold repos_of, slice_to_m1.
    rewrite split_lines by assumption. apply removelast_last. }
  rewrite R. split; [|split; [exact Hsegs | exists rest; split; assumption]].
  rewrite E, count_occ_app, count_occ_lines by assumption.
  rewrite (proj1 (count_occ_not_In ascii_dec rest newline) Hrest). lia.
Qed.

(* ===================================================================== *)
(** ** The manifest collector, on every output *)
(* ===================================================================== *)

Lemma split_fuel_not_nil (n : nat) (sep s : str) : split_fuel n sep s <> [].
Proof.
  destruct n; cbn [split_fuel]; [discriminate|].
  destruct (partition sep s) as [[b a]|]; discriminate.
Qed.

Lemma snoc_not_nil {A} (l : list A) (x : A) : l ++ [x] <> [].
Proof. destruct l; discriminate. Qed.

Lemma join_cons (sep p : str) (l : list str) :
  l <> [] -> join sep (p :: l) = p ++ sep ++ join sep l.
Proof. intros H. destruct l; [now contradiction H | reflexivity]. Qed.

(** Cutting a text at a separator and joining the pieces with it gives the
    text back. *)
Lemma join_split_fuel (sep : str) (n : nat) :
  forall s, join sep (split_fuel n sep s) = s.
Proof.
  induction n as [|n IH]; intros s; [reflexivity|].
  cbn [split_fuel]. destruct (partition sep s) as [[b a]|] eqn:P; [|reflexivity].
  rewrite join_cons by apply split_fuel_not_nil.
  rewrite IH. symmetry. now apply partition_spec.
Qed.

Lemma join_restored (l : list str) (x : str) :
  join (lit ",") (map (fun o => o ++ lit "}") l ++ [x]) =
  join (lit "},") (l ++ [x]).
Proof.
  induction l as [|o l IH]; [reflexivity|].
  change (join (lit ",") ((o ++ lit "}") :: (map (fun o => o ++ lit "}") l ++ [x])) =
          join (lit "},") (o :: (l ++ [x]))).
  rewrite !join_cons by apply snoc_not_nil.
  rewrite IH, <- app_assoc. reflexivity.
Qed.

(** X2.  Lines 124-134 lose nothing and add nothing: whatever [az] printed,
    there is at least one piece, there are as many pieces as line 125
    reports, and the pieces joined with commas are the output without its
    line breaks and spaces and without its first and last character. *)
Theorem pieces_rejoin :
  forall output : str,
    pieces (outputs_of output) <> [] /\
    length (pieces (outputs_of output)) = length (outputs_of output) /\
    join (lit ",") (pieces (outputs_of output)) = slice_1_m1 (filter keep output).
Proof.
  intros output.
  assert (Hne : outputs_of output <> []) by apply split_fuel_not_nil.
  destruct (exists_last Hne) as (l & x & E).
  rewrite E, pieces_snoc.
  split; [apply snoc_not_nil|].
  split; [rewrite !length_app, length_map; reflexivity|].
  rewrite join_restored, <- E. unfold outputs_of, split.
  rewrite join_split_fuel, squeeze_filter. reflexivity.
Qed.

(* ===================================================================== *)
(** ** Manifests that cannot be evaluated *)
(* ===================================================================== *)

(** X3.  Lines 137-138 raise before anything else is done: on a text that
    is no JSON, on a JSON value that is no object, on an object without
    ["timestamp"] and on a timestamp pandas rejects, the evaluation ends
    with the matching exception in the state it started from: the clock is
    not read, nothing is logged, no variable changes. *)
Theorem unreadable_manifest_raises_at_once :
  forall (O : Outside) (repo output : str) (s : state),
    (json_loads output = None ->
     evaluate repo output s = (Raised JSONDecodeError, s)) /\
    (forall v, json_loads output = Some v ->
               (forall members, v <> JObj members) ->
     evaluate repo output s = (Raised TypeError, s)) /\
    (forall members,
        json_loads output = Some (JObj members) ->
        dict_get (lit "timestamp") members = None ->
     evaluate repo output s = (Raised (KeyError (lit "timestamp")), s)) /\
    (forall members raw,
        json_loads output = Some (JObj members) ->
        dict_get (lit "timestamp") members = Some raw ->
        to_datetime raw = None ->
     evaluate repo output s = (Raised DatetimeError, s)).
Proof.
  intros O repo output s. unfold evaluate, bind, getitem.
  split; [|split; [|split]].
  - intros ->. reflexivity.
  - intros v -> Hv. cbn [ret].
    destruct v; try reflexivity. now contradiction (Hv members).
  - intros members -> Ht. cbn [ret]. rewrite Ht. reflexivity.
  - intros members raw -> Ht Hp. cbn [ret]. rewrite Ht. cbn [ret].
    rewrite Hp. reflexivity.
Qed.


(** X5.  Lines 143-147 look the digest up only for a manifest that is old
    enough.  A manifest whose timestamp is missing for pandas ([NaT]) or
    younger than 90 days is passed over after the clock was read, whether
    it has a digest or not; an old manifest without ["digest"] raises
    [KeyError] after the clock was read, before any log line and any
    change of the variables. *)
Theorem digest_is_read_for_old_manifests_only :
  forall (O : Outside) (repo output : str) (s : state)
         (members : list (str * json)) (raw : json) (parsed : datetime),
    json_loads output = Some (JObj members) ->
    dict_get (lit "timestamp") members = Some raw ->
    to_datetime raw = Some parsed ->
    let t := fst (clock (world s)) in
    let s1 := record (Now t) (snd (clock (world s))) s in
    (parsed = NaT \/ ge (age_days t parsed) 90 = false ->
     evaluate repo output s = (Ok tt, s1)) /\
    (ge (age_days t parsed) 90 = true ->
     dict_get (lit "digest") members = None ->
     evaluate repo output s = (Raised (KeyError (lit "digest")), s1)).
Proof.
  intros O repo output s members raw parsed Hj Ht Hp t s1.
  rewrite (evaluate_parsed repo output s Hj Ht Hp). fold t. fold s1.
  unfold classify, bind, getitem. split.
  - intros [-> | E]; [reflexivity | now rewrite E].
  - intros E Hd. rewrite E, Hd. reflexivity.
Qed.

(** X6.  The threshold of line 144, in nanoseconds: a manifest is old
    enough exactly when the local wall-clock time of the machine is at
    least 90 times 24 hours after the wall-clock time of its timestamp,
    bound included, whatever the zone of the timestamp; a missing
    timestamp is never old enough. *)
Theorem ninety_days_to_the_nanosecond :
  forall (O : Outside) (t wall : Z) (off : option Z),
    (ge (age_days t (Stamp wall off)) 90 = true <->
     (90 * ns_per_day <= localtime t - wall)%Z) /\
    ge (age_days t NaT) 90 = false.
Proof.
  intros O t wall off. split; [|reflexivity].
  unfold age_days, days, sub, tz_localize_none, ge.
  rewrite Z.leb_le. unfold ns_per_day.
  change (86400 * 1000000000)%Z with 86400000000000%Z.
  pose proof (Z.div_mod (localtime t - wall) 86400000000000 ltac:(lia)) as E.
  pose proof (Z.mod_pos_bound (localtime t - wall) 86400000000000 ltac:(lia)) as B.
  lia.
Qed.

(* ===================================================================== *)
(** ** What a run leaves behind *)
(* ===================================================================== *)

(** The command lines of the [az] calls of a history, in order. *)
Definition calls (h : list (event * locals)) : list (list str) :=
  flat_map
    (fun ev => match fst ev with Spawn argv _ => [argv] | _ => [] end) h.

(** The images the log announces as old (line 145), in order. *)
Definition announced (h : list (event * locals)) : list str :=
  flat_map
    (fun ev =>
       match fst ev with Log (INFO (MsgOld image _)) => [image] | _ => [] end) h.

(** The images the log reports as deleted (line 166), in order. *)
Definition reported (h : list (event * locals)) : list str :=
  flat_map
    (fun ev =>
       match fst ev with Log (INFO (MsgDeleted image)) => [image] | _ => [] end) h.

(** An announcement gives an age of at least 90 days. *)
Definition old_enough (e : event) : Prop :=
  match e with
  | Log (INFO (MsgOld _ diff)) => ge diff 90 = true
  | _ => True
  end.

(** The skeleton of the proofs below: an invariant [I] that the events in
    [allowed] keep, and that the decision on a manifest of a repository in
    [listed] (the announcement and the update of the variables together)
    keeps, holds throughout the reading steps on such repositories. *)
Section Reading.
Context {O : Outside}.

Variable allowed : event -> Prop.
Variable listed : str -> Prop.
Variable I : state -> Prop.
Hypothesis I_event : forall e w s, allowed e -> I s -> I (record e w s).
Hypothesis I_classify :
  forall repo manifest diff,
    listed repo -> hoare I (classify repo manifest diff) I.
Hypothesis allowed_now : forall t, allowed (Now t).
Hypothesis allowed_error : forall text, allowed (Log (ERROR text)).
Hypothesis allowed_info :
  forall m, reading_message m -> (forall image diff, m <> MsgOld image diff) ->
            allowed (Log (INFO m)).

Lemma rd_evaluate repo output :
  listed repo -> hoare I (evaluate repo output) I.
Proof.
  intros Hrepo. unfold evaluate.
  apply hoare_seq.
  { destruct (json_loads output); [apply hoare_ret | apply hoare_raise]. }
  intros manifest. apply hoare_seq; [apply hoare_getitem|].
  intros raw. apply hoare_seq.
  { destruct (to_datetime raw); [apply hoare_ret | apply hoare_raise]. }
  intros parsed. apply hoare_seq.
  { intros s Hs. apply I_event; auto. }
  intros now. now apply I_classify.
Qed.

Lemma rd_info m :
  reading_message m -> (forall image diff, m <> MsgOld image diff) ->
  hoare I (logging_info m) I.
Proof. intros Hm Hn s Hs. apply I_event; auto. Qed.

Lemma rd_check p on_success :
  hoare I on_success I -> hoare I (check p on_success) I.
Proof.
  intros H. unfold check. destruct (returncode p =? 0)%Z; [exact H|].
  apply hoare_seq; [intros s Hs; apply I_event; auto|].
  intros _; apply hoare_raise.
Qed.

(** One repository, once its listing was asked for. *)
Lemma rd_manifests repo p :
  listed repo ->
  hoare I
    (check p
       (logging_info (MsgPulled repo) ;;
        logging_info (MsgTotalManifests repo (length (outputs_of (stdout p))))) ;;
     for_each (enumerate (outputs_of (stdout p)))
       (fun '(j, output) =>
          evaluate repo (restore (length (outputs_of (stdout p))) j output)))
    I.
Proof.
  intros Hrepo. apply hoare_seq.
  { apply rd_check.
    apply hoare_seq; [apply rd_info; [exact Logic.I | discriminate]|].
    intros _. apply rd_info; [exact Logic.I | discriminate]. }
  intros _. apply hoare_for_each. intros [j output] _.
  now apply rd_evaluate.
Qed.

Hypothesis allowed_spawn : forall argv p, allowed (Spawn argv p).

Lemma rd_Popen argv : hoare I (Popen argv) I.
Proof. intros s Hs. apply I_event; auto. Qed.

Lemma rd_check_repository registry repo :
  listed repo -> hoare I (check_repository registry repo) I.
Proof.
  intros Hrepo. unfold check_repository. apply hoare_seq; [apply rd_Popen|].
  intros p. now apply rd_manifests.
Qed.

Lemma rd_collect registry :
  (forall repo, listed repo) -> hoare I (collect registry) I.
Proof.
  intros Hall. unfold collect.
  repeat first
    [ apply rd_info; [exact Logic.I | discriminate]
    | apply rd_Popen
    | apply rd_check
    | apply hoare_seq; [|intro] ].
  apply hoare_for_each. intros repo _. now apply rd_check_repository.
Qed.

End Reading.

(* --------------------------------------------------------------------- *)
(** *** The calls of a run *)

Section Calls.
Context {O : Outside}.

Lemma calls_record e w s :
  calls (history (record e w s)) =
  calls (history s) ++ match e with Spawn argv _ => [argv] | _ => [] end.
Proof.
  unfold record, calls. cbn [history]. rewrite flat_map_app.
  cbn. now rewrite app_nil_r.
Qed.

(** The evaluation of the manifests of a repository calls nothing; the
    one call for a repository is the request for its manifests. *)
Lemma calls_check_repository registry repo s :
  calls (history (snd (check_repository registry repo s))) =
  calls (history s) ++ [az_show_manifests registry repo].
Proof.
  unfold check_repository. rewrite bind_Popen.
  apply (@rd_manifests O
           (fun e => match e with Spawn _ _ => False | _ => True end)
           (fun _ => True)
           (fun s' => calls (history s') =
                      calls (history s) ++ [az_show_manifests registry repo])).
  - intros e w s' He Hs. rewrite calls_record, Hs.
    destruct e; [| contradiction |]; now rewrite app_nil_r.
  - intros repo' manifest diff _. unfold classify.
    destruct (ge diff 90); [|apply hoare_ret].
    apply hoare_seq; [apply hoare_getitem|]. intros digest.
    apply hoare_seq.
    + intros s' Hs. unfold logging_info; cbn [snd].
      rewrite calls_record, Hs. now rewrite app_nil_r.
    + intros _ s' Hs. exact Hs.
  - intros t. exact Logic.I.
  - intros text. exact Logic.I.
  - intros m _ _. exact Logic.I.
  - exact Logic.I.
  - now rewrite calls_record.
Qed.

Lemma calls_delete_image registry image s :
  calls (history (snd (delete_image registry image s))) =
  calls (history s) ++ [az_delete registry image].
Proof.
  rewrite delete_image_eq. cbv zeta.
  destruct (returncode _ =? 0)%Z; cbn [snd history];
    rewrite !calls_record, !app_nil_r; reflexivity.
Qed.

(** A loop whose body makes one call per element. *)
Lemma calls_for_each {A} (f : A -> list str) (body : A -> M unit) :
  (forall x s, calls (history (snd (body x s))) = calls (history s) ++ [f x]) ->
  forall l s, exists k,
    k <= length l /\
    calls (history (snd (for_each l body s))) =
      calls (history s) ++ map f (firstn k l) /\
    (fst (for_each l body s) = Ok tt -> k = length l).
Proof.
  intros Hbody. induction l as [|x l IH]; intros s.
  - exists 0. cbn. rewrite app_nil_r. auto.
  - cbn [for_each]. unfold bind. specialize (Hbody x s).
    destruct (body x s) as [[[]|e] s1]; cbn [fst snd] in *.
    + destruct (IH s1) as (k & Hk & Hc & Hok). exists (S k).
      split; [simpl; lia|]. split.
      * rewrite Hc, Hbody, <- app_assoc. reflexivity.
      * intros H. cbn [length]. f_equal. auto.
    + exists 1. split; [simpl; lia|].
      split; [rewrite Hbody; reflexivity | discriminate].
Qed.

End Calls.

Section Plan.
Context {O : Outside}.

(** The reading steps, spelled out up to the loop over the repositories. *)
Lemma collect_eq registry s :
  collect registry s =
  let login := spawn (world s) az_login in
  let s1 := record (Spawn az_login (fst login)) (snd login)
              (record (Log (INFO MsgLoginAzure)) (world s) s) in
  if (returncode (fst login) =? 0)%Z then
    let acr := spawn (snd login) (az_acr_login registry) in
    let s2 := record (Spawn (az_acr_login registry) (fst acr)) (snd acr)
                (record (Log (INFO MsgLoginACR)) (snd login)
                   (record (Log (INFO MsgLoggedIntoAzure)) (snd login) s1)) in
    if (returncode (fst acr) =? 0)%Z then
      let listing := spawn (snd acr) (az_repository_list registry) in
      let s3 := record (Spawn (az_repository_list registry) (fst listing))
                  (snd listing)
                  (record (Log (INFO (MsgFetching registry))) (snd acr)
                     (record (Log (INFO (MsgLoggedIntoACR registry)))
                        (snd acr) s2)) in
      if (returncode (fst listing) =? 0)%Z then
        let repos := repos_of (stdout (fst listing)) in
        for_each repos (check_repository registry)
          (record (Log (INFO MsgChecking)) (snd listing)
             (record (Log (INFO (MsgTotalRepos (length repos)))) (snd listing)
                (record (Log (INFO (MsgFetched registry))) (snd listing) s3)))
      else
        (Raised (AzureError (stderr (fst listing))),
         record (Log (ERROR (stderr (fst listing)))) (snd listing) s3)
    else
      (Raised (AzureError (stderr (fst acr))),
       record (Log (ERROR (stderr (fst acr)))) (snd acr) s2)
  else
    (Raised (AzureError (stderr (fst login))),
     record (Log (ERROR (stderr (fst login)))) (snd login) s1).
Proof.
  unfold collect, bind, logging_info, Popen, check, logging_error, raise.
  cbv zeta. cbn [fst snd world record].
  destruct (returncode (fst (spawn (world s) az_login)) =? 0)%Z;
    [|reflexivity].
  cbn [fst snd world record].
  destruct (returncode (fst (spawn _ (az_acr_login registry))) =? 0)%Z;
    [|reflexivity].
  cbn [fst snd world record].
  destruct (returncode (fst (spawn _ (az_repository_list registry))) =? 0)%Z;
    reflexivity.
Qed.

(** The calls of the reading steps: the two logins, the listing of the
    repositories and one request per repository, in this order, up to the
    point where the steps stop. *)
Lemma calls_collect registry s :
  let login := spawn (world s) az_login in
  let acr := spawn (snd login) (az_acr_login registry) in
  let listing := spawn (snd acr) (az_repository_list registry) in
  let repos := repos_of (stdout (fst listing)) in
  let r := collect registry s in
  exists n,
    n <= 3 + length repos /\
    calls (history (snd r)) =
      calls (history s) ++
      firstn n (az_login :: az_acr_login registry ::
                az_repository_list registry ::
                map (az_show_manifests registry) repos) /\
    (fst r = Ok tt -> n = 3 + length repos).
Proof.
  intros login acr listing repos r. subst r.
  rewrite collect_eq. cbv zeta. fold login.
  destruct (returncode (fst login) =? 0)%Z.
  2:{ exists 1. split; [lia|]. cbn [fst snd].
      rewrite !calls_record, !app_nil_r. split; [reflexivity | discriminate]. }
  fold acr. destruct (returncode (fst acr) =? 0)%Z.
  2:{ exists 2. split; [lia|]. cbn [fst snd].
      rewrite !calls_record, !app_nil_r, <- !app_assoc.
      split; [reflexivity | discriminate]. }
  fold listing. destruct (returncode (fst listing) =? 0)%Z.
  2:{ exists 3. split; [lia|]. cbn [fst snd].
      rewrite !calls_record, !app_nil_r, <- !app_assoc.
      split; [reflexivity | discriminate]. }
  fold repos.
  match goal with
  | |- context [for_each repos ?b ?s0] =>
      destruct (calls_for_each (az_show_manifests registry) b
                  (calls_check_repository registry) repos s0)
        as (k & Hk & Hc & Hok)
  end.
  exists (3 + k). split; [simpl; lia|]. split.
  - rewrite Hc, !calls_record, !app_nil_r, <- !app_assoc.
    cbn [firstn Nat.add app]. rewrite firstn_map. reflexivity.
  - intros H. f_equal. auto.
Qed.

(** The deletion loop keeps the list and the number of candidates. *)
Lemma delete_loop_keeps registry l s :
  let s' := snd (for_each l (delete_image registry) s) in
  images_to_be_deleted_digest (vars s') = images_to_be_deleted_digest (vars s) /\
  images_to_be_deleted_number (vars s') = images_to_be_deleted_number (vars s).
Proof.
  apply (@hoare_for_each O str
           (fun s' => images_to_be_deleted_digest (vars s') =
                      images_to_be_deleted_digest (vars s) /\
                      images_to_be_deleted_number (vars s') =
                      images_to_be_deleted_number (vars s))
           l (delete_image registry)); [|split; reflexivity].
  intros image _ s' Hs. rewrite delete_image_eq. cbv zeta.
  destruct (returncode _ =? 0)%Z; exact Hs.
Qed.

(** The deletions keep the list of candidates and call the delete
    operation for a prefix of it. *)
Lemma calls_finish_live registry s :
  let r := finish {| name := registry; dry_run := false |} s in
  (images_to_be_deleted_digest (vars (snd r)) =
     images_to_be_deleted_digest (vars s) /\
   images_to_be_deleted_number (vars (snd r)) =
     images_to_be_deleted_number (vars s)) /\
  exists k,
    k <= length (images_to_be_deleted_digest (vars s)) /\
    calls (history (snd r)) =
      calls (history s) ++
      map (az_delete registry) (firstn k (images_to_be_deleted_digest (vars s))) /\
    (fst r = Ok tt -> k = length (images_to_be_deleted_digest (vars s))).
Proof.
  intros r. subst r. rewrite finish_live_eq. cbv zeta.
  set (s1 := record (Log (INFO (MsgToBeDeleted
                                  (images_to_be_deleted_number (vars s)))))
                    (world s) s).
  change (vars s1) with (vars s).
  set (l := images_to_be_deleted_digest (vars s)).
  pose proof (delete_loop_keeps registry l s1) as Hd. cbv zeta in Hd.
  change (vars s1) with (vars s) in Hd. fold l in Hd.
  destruct (calls_for_each (az_delete registry) (delete_image registry)
              (calls_delete_image registry) l s1) as (k & Hk & Hc & Hok).
  assert (E1 : calls (history s1) = calls (history s)).
  { subst s1. now rewrite calls_record, app_nil_r. }
  rewrite E1 in Hc.
  destruct (fst (for_each l (delete_image registry) s1)) as [[]|e];
    cbn [fst snd].
  - split; [exact Hd|]. exists k. split; [exact Hk|].
    split; [now rewrite calls_record, app_nil_r | auto].
  - split; [exact Hd|]. exists k. split; [exact Hk|].
    split; [exact Hc | discriminate].
Qed.

End Plan.

Lemma calls_prepend {O : Outside} h s :
  calls (history (prepend h s)) = calls h ++ calls (history s).
Proof. unfold prepend, calls. cbn [history]. apply flat_map_app. Qed.

(** X10.  The [az] calls of a run are, in order, a prefix of its plan: the
    login, the login to the registry, the listing of its repositories, one
    request for the manifests of each repository listed, in the order of
    the listing, and, in a live run, one delete call for each candidate, in
    the order of collection.  A run that completes has made exactly the
    calls of the plan. *)
Theorem calls_follow_the_plan :
  forall (O : Outside) (a : args) (w : World),
    let login := spawn w az_login in
    let acr := spawn (snd login) (az_acr_login (name a)) in
    let listing := spawn (snd acr) (az_repository_list (name a)) in
    let repos := repos_of (stdout (fst listing)) in
    let s := snd (run a w) in
    let plan :=
      (az_login :: az_acr_login (name a) :: az_repository_list (name a) ::
       map (az_show_manifests (name a)) repos) ++
      (if dry_run a then []
       else map (az_delete (name a)) (images_to_be_deleted_digest (vars s))) in
    (exists n, calls (history s) = firstn n plan) /\
    (fst (run a w) = Ok tt -> calls (history s) = plan).
Proof.
  intros O [registry dry] w login acr listing repos s plan.
  cbn [name dry_run] in *.
  destruct (calls_collect registry (initial w)) as (n & Hn & Hc & Hok).
  cbn [world initial history calls flat_map app] in Hc, Hn, Hok.
  fold login acr listing repos in Hc, Hn, Hok.
  set (reading := az_login :: az_acr_login registry ::
                  az_repository_list registry ::
                  map (az_show_manifests registry) repos) in *.
  assert (Hlen : length reading = 3 + length repos).
  { subst reading. cbn [length]. now rewrite length_map. }
  destruct dry.
  - subst plan s. rewrite app_nil_r. rewrite dry_run_eq. cbv zeta.
    destruct (fst (collect registry (initial w))) as [[]|e]; cbn [fst snd].
    + rewrite calls_record, app_nil_r, calls_prepend. cbn [calls flat_map app fst].
      rewrite Hc, (Hok eq_refl), <- Hlen, firstn_all.
      split; [exists (length reading); now rewrite firstn_all | reflexivity].
    + rewrite calls_prepend. cbn [calls flat_map app fst].
      split; [now exists n | discriminate].
  - subst plan s. rewrite live_run_eq. cbv zeta.
    destruct (fst (collect registry (initial w))) as [[]|e]; cbn [fst snd].
    + destruct (calls_finish_live registry (snd (collect registry (initial w))))
        as ((Hd & _) & k & Hk & Hf & Hfull).
      cbv zeta in Hd, Hf, Hfull. rewrite Hd, Hf, Hc, (Hok eq_refl).
      rewrite <- Hlen, firstn_all. split.
      * exists (length reading + k).
        rewrite firstn_app_2, firstn_map. reflexivity.
      * intros H. rewrite (Hfull H), firstn_all. reflexivity.
    + split; [|discriminate]. exists n. rewrite Hc.
      rewrite firstn_app.
      replace (n - length reading) with 0 by lia.
      cbn [firstn]. now rewrite app_nil_r.
Qed.

(* --------------------------------------------------------------------- *)
(** *** Exceptions other than [AzureError] *)

Section Errors.
Context {O : Outside}.

Lemma reading_collect registry w :
  Forall (fun ev => reads registry (fst ev))
         (history (snd (collect registry (initial w)))).
Proof.
  set (I := fun s : state => Forall (fun ev => reads registry (fst ev)) (history s)).
  apply (@inv_collect O registry I I); subst I; cbn beta.
  - auto.
  - intros e w0 s He Hs. unfold record; simpl.
    apply Forall_app. split; [exact Hs | now constructor].
  - intros image s Hs. exact Hs.
  - constructor.
Qed.

(** The deletion loop raises nothing but [AzureError]. *)
Lemma delete_loop_raises registry l : forall s e,
  fst (for_each l (delete_image registry) s) = Raised e ->
  exists text, e = AzureError text.
Proof.
  induction l as [|image l IH]; intros s e; [discriminate|].
  cbn [for_each]. unfold bind. rewrite delete_image_eq. cbv zeta.
  destruct (returncode _ =? 0)%Z; [apply IH|].
  cbn [fst]. intros E; inversion E; eauto.
Qed.

End Errors.


(* --------------------------------------------------------------------- *)
(** *** A dry run and the live run that follows it *)

Lemma delete_calls_filter (h : list (event * locals)) :
  delete_calls h = filter is_delete_argv (calls h).
Proof.
  induction h as [|[e v] h IH]; [reflexivity|].
  unfold delete_calls, calls in *. cbn [flat_map fst].
  rewrite filter_app, <- IH.
  destruct e; reflexivity.
Qed.

Lemma filter_delete_calls registry (l : list str) :
  filter is_delete_argv (map (az_delete registry) l) = map (az_delete registry) l.
Proof.
  induction l as [|image l IH]; [reflexivity|].
  cbn [map filter]. now rewrite IH.
Qed.

(** The delete calls of the deletions, started when nothing was deleted. *)
Lemma delete_calls_finish_live {O : Outside} registry s :
  untouched s ->
  let r := finish {| name := registry; dry_run := false |} s in
  exists k,
    delete_calls (history (snd r)) =
      map (az_delete registry) (firstn k (images_to_be_deleted_digest (vars s))) /\
    (fst r = Ok tt -> k = length (images_to_be_deleted_digest (vars s))).
Proof.
  intros Hu r. subst r.
  destruct (calls_finish_live registry s) as (_ & k & Hk & Hc & Hfull).
  cbv zeta in Hc, Hfull. exists k. split; [|exact Hfull].
  rewrite delete_calls_filter, Hc, filter_app, <- delete_calls_filter.
  rewrite (delete_calls_none (proj1 Hu)). apply filter_delete_calls.
Qed.

(** X8.  A dry run predicts the live run started in the same outside
    world: both end with the same list and the same number of candidates;
    the delete calls of the live run are the delete calls for the first
    candidates the dry run found, in that order, for all of them when the
    live run completes; and when the dry run ends with an exception the
    live run ends with the same exception before any delete call. *)
Theorem dry_run_predicts_live_run :
  forall (O : Outside) (registry : str) (w : World),
    let dry := run {| name := registry; dry_run := true |} w in
    let live := run {| name := registry; dry_run := false |} w in
    let candidates := images_to_be_deleted_digest (vars (snd dry)) in
    images_to_be_deleted_digest (vars (snd live)) = candidates /\
    images_to_be_deleted_number (vars (snd live)) =
      images_to_be_deleted_number (vars (snd dry)) /\
    (exists k, delete_calls (history (snd live)) =
               map (az_delete registry) (firstn k candidates)) /\
    (fst live = Ok tt ->
     fst dry = Ok tt /\
     delete_calls (history (snd live)) = map (az_delete registry) candidates) /\
    (forall e, fst dry = Raised e ->
     fst live = Raised e /\ delete_calls (history (snd live)) = []).
Proof.
  intros O registry w dry live candidates. subst candidates dry live.
  rewrite dry_run_eq, live_run_eq. cbv zeta.
  pose proof (ready_collect registry w) as [Hu _].
  pose proof (delete_calls_none (proj1 Hu)) as Hnone.
  set (s := snd (collect registry (initial w))) in *.
  destruct (fst (collect registry (initial w))) as [[]|e]; cbn [fst snd].
  - destruct (calls_finish_live registry s) as ((Hd & Hn) & _).
    destruct (delete_calls_finish_live registry Hu) as (k & Hdel & Hfull).
    cbv zeta in Hd, Hn, Hdel, Hfull.
    cbn [vars record prepend].
    split; [exact Hd|]. split; [exact Hn|].
    split; [now exists k|].
    split; [|discriminate].
    intros H. split; [reflexivity|].
    rewrite Hdel, (Hfull H), firstn_all. reflexivity.
  - cbn [vars prepend]. split; [reflexivity|]. split; [reflexivity|].
    split; [exists 0; exact Hnone|].
    split; [discriminate|].
    intros e' E. split; [exact E | exact Hnone].
Qed.

(* --------------------------------------------------------------------- *)
(** *** The log as a record of the run *)

(** The events that are neither an announcement nor the report of a
    deletion. *)
Definition silent (e : event) : Prop :=
  match e with
  | Log (INFO (MsgOld _ _)) | Log (INFO (MsgDeleted _)) => False
  | _ => True
  end.

Section Trail.
Context {O : Outside}.

(** The log agrees with the variables. *)
Definition trail (s : state) : Prop :=
  announced (history s) = images_to_be_deleted_digest (vars s) /\
  reported (history s) =
    firstn (deleted_images_total (vars s)) (images_to_be_deleted_digest (vars s)) /\
  deleted_images_total (vars s) <= length (images_to_be_deleted_digest (vars s)) /\
  Forall (fun ev => old_enough (fst ev)) (history s).

Lemma announced_record e w s :
  announced (history (record e w s)) =
  announced (history s) ++
  match e with Log (INFO (MsgOld image _)) => [image] | _ => [] end.
Proof.
  unfold record, announced. cbn [history]. rewrite flat_map_app.
  cbn. now rewrite app_nil_r.
Qed.

Lemma reported_record e w s :
  reported (history (record e w s)) =
  reported (history s) ++
  match e with Log (INFO (MsgDeleted image)) => [image] | _ => [] end.
Proof.
  unfold record, reported. cbn [history]. rewrite flat_map_app.
  cbn. now rewrite app_nil_r.
Qed.

Lemma silent_old_enough e : silent e -> old_enough e.
Proof. destruct e as [[[]|]| |]; simpl; auto. Qed.

Lemma trail_record e w s : silent e -> trail s -> trail (record e w s).
Proof.
  intros He (Ha & Hr & Hd & Ho). unfold trail.
  rewrite announced_record, reported_record. cbn [vars record].
  split; [|split; [|split; [exact Hd|]]].
  - rewrite Ha. destruct e as [[[]|]| |]; try apply app_nil_r. contradiction.
  - rewrite Hr. destruct e as [[[]|]| |]; try apply app_nil_r. contradiction.
  - unfold record; cbn [history]. apply Forall_app. split; [exact Ho|].
    constructor; [now apply silent_old_enough | constructor].
Qed.

Lemma firstn_snoc_within {A} (n : nat) (l : list A) (x : A) :
  n <= length l -> firstn n (l ++ [x]) = firstn n l.
Proof.
  intros H. rewrite firstn_app.
  replace (n - length l) with 0 by lia. apply app_nil_r.
Qed.

(** The announcement and the update, together. *)
Lemma trail_classify (P : state -> Prop) repo manifest diff :
  (forall s image, P s -> P {| world := world s;
                                vars := add_candidate image (vars s);
                                history := history s ++
                                  [(Log (INFO (MsgOld image diff)), vars s)] |}) ->
  hoare (fun s => trail s /\ P s) (classify repo manifest diff)
        (fun s => trail s /\ P s).
Proof.
  intros HP s [(Ha & Hr & Hd & Ho) Hp]. unfold classify.
  destruct (ge diff 90) eqn:E; [|split; [repeat split|]; assumption].
  unfold bind, getitem.
  destruct manifest; try (split; [repeat split|]; assumption).
  destruct (dict_get (lit "digest") members) as [digest|];
    [|split; [repeat split|]; assumption].
  cbn [ret logging_info modify_vars fst snd record world vars history].
  split; [|apply HP, Hp].
  unfold trail, announced, reported.
  cbn [vars history add_candidate images_to_be_deleted_digest
       deleted_images_total].
  rewrite !flat_map_app. cbn [flat_map fst app].
  fold (announced (history s)). fold (reported (history s)).
  rewrite Ha, Hr, app_nil_r, length_app, firstn_snoc_within by exact Hd.
  split; [reflexivity|].
  split; [cbn [app]; apply app_nil_r|].
  split; [cbn [length]; lia|].
  apply Forall_app. split; [exact Ho|].
  constructor; [exact E | constructor].
Qed.

(** The log agrees with the variables throughout the reading steps, and
    nothing is counted as deleted there. *)
Definition reading_trail (s : state) : Prop :=
  trail s /\ deleted_images_total (vars s) = 0.

Lemma trail_collect registry : hoare reading_trail (collect registry) reading_trail.
Proof.
  apply (@rd_collect O silent (fun _ => True) reading_trail).
  - intros e w s He [Ht Hd]. split; [now apply trail_record | exact Hd].
  - intros repo manifest diff _. apply trail_classify.
    intros s image H. exact H.
  - intros t. exact Logic.I.
  - intros text. exact Logic.I.
  - intros m Hm Hn. destruct m; try exact Logic.I.
    + now contradiction (Hn image diff).
    + contradiction Hm.
  - intros argv p. exact Logic.I.
  - intros repo. exact Logic.I.
Qed.

Lemma trail_delete_loop registry l : forall done s,
  trail s ->
  images_to_be_deleted_digest (vars s) = done ++ l ->
  deleted_images_total (vars s) = length done ->
  trail (snd (for_each l (delete_image registry) s)).
Proof.
  induction l as [|image l IH]; intros done s Ht Hl Hd; [exact Ht|].
  cbn [for_each]. unfold bind. rewrite delete_image_eq. cbv zeta.
  set (s1 := record (Log (INFO (MsgDeleting image))) (world s) s).
  set (reply := spawn (world s1) (az_delete registry image)).
  set (s2 := record (Spawn (az_delete registry image) (fst reply)) (snd reply) s1).
  assert (Ht2 : trail s2) by (repeat apply trail_record; auto; exact Logic.I).
  destruct (returncode (fst reply) =? 0)%Z.
  - apply (IH (done ++ [image])).
    + destruct Ht2 as (Ha & Hr & Hn & Ho). unfold trail.
      cbn [history vars].
      change (vars (record (Log (INFO (MsgDeleted image))) (world s2) s2))
        with (vars s).
      cbn [count_deleted images_to_be_deleted_digest deleted_images_total].
      rewrite announced_record, reported_record, app_nil_r, Ha, Hr.
      change (vars s2) with (vars s) in *. rewrite Hl, Hd in *.
      split; [reflexivity|]. split; [|split].
      * rewrite <- (Nat.add_0_r (length done)) at 1.
        rewrite !firstn_app_2. cbn [firstn]. now rewrite app_nil_r.
      * rewrite length_app. cbn [length]. lia.
      * unfold record; cbn [history]. apply Forall_app. split; [exact Ho|].
        constructor; [exact Logic.I | constructor].
    + cbn [vars count_deleted images_to_be_deleted_digest record].
      change (vars s2) with (vars s). rewrite Hl, <- app_assoc. reflexivity.
    + cbn [vars count_deleted deleted_images_total record].
      change (vars s2) with (vars s). rewrite Hd, length_app. reflexivity.
  - cbn [snd]. apply trail_record; [exact Logic.I | exact Ht2].
Qed.

Lemma trail_finish a : hoare reading_trail (finish a) trail.
Proof.
  destruct a as [registry dry]. intros s [Ht Hd]. destruct dry.
  - unfold finish, bind, get_vars, logging_info. cbn [dry_run fst snd].
    apply trail_record; [exact Logic.I | exact Ht].
  - rewrite finish_live_eq. cbv zeta.
    match goal with
    | |- context [for_each ?l ?b ?s0] =>
        assert (Hl : trail (snd (for_each l b s0)))
    end.
    { apply (@trail_delete_loop registry _ []).
      - apply trail_record; [exact Logic.I | exact Ht].
      - reflexivity.
      - exact Hd. }
    match goal with
    | |- context [for_each ?l ?b ?s0] =>
        destruct (fst (for_each l b s0)) as [[]|e]
    end; cbn [snd]; [|exact Hl].
    apply trail_record; [exact Logic.I | exact Hl].
Qed.

End Trail.

(** X9.  The log is a faithful record of the variables: at the end of every
    run, completed or not, the images announced as old (line 145) are
    exactly the candidates, in order; the images reported as deleted
    (line 166) are exactly the first candidates, as many as the counter of
    deleted images says; and every announcement gives an age of at least
    90 days. *)
Theorem log_is_a_record_of_the_run :
  forall (O : Outside) (a : args) (w : World),
    let s := snd (run a w) in
    announced (history s) = images_to_be_deleted_digest (vars s) /\
    reported (history s) =
      firstn (deleted_images_total (vars s)) (images_to_be_deleted_digest (vars s)) /\
    length (reported (history s)) = deleted_images_total (vars s) /\
    Forall (fun ev => old_enough (fst ev)) (history s).
Proof.
  intros O a w s.
  assert (H : trail s).
  { subst s. unfold run, main.
    apply (@hoare_bind O unit unit reading_trail reading_trail trail).
    - destruct (dry_run a); [|apply hoare_ret].
      intros s [Ht Hd]. split; [|exact Hd].
      apply trail_record; [exact Logic.I | exact Ht].
    - intros s [Ht _]. exact Ht.
    - intros _.
      apply (@hoare_bind O unit unit reading_trail reading_trail trail).
      + apply trail_collect.
      + intros s [Ht _]. exact Ht.
      + intros _. apply trail_finish.
    - split; [|reflexivity].
      split; [reflexivity|]. split; [reflexivity|].
      split; [apply Nat.le_refl | constructor]. }
  destruct H as (Ha & Hr & Hd & Ho).
  split; [exact Ha|]. split; [exact Hr|]. split; [|exact Ho].
  rewrite Hr, length_firstn. lia.
Qed.

(* --------------------------------------------------------------------- *)
(** *** Where the candidates come from *)

(** An image of one of the repositories [repos]. *)
Definition image_of (repos : list str) (image : str) : Prop :=
  exists repo digest, In repo repos /\ image = repo ++ lit "@" ++ digest.

Lemma Forall_firstn {A} (P : A -> Prop) (n : nat) (l : list A) :
  Forall P l -> Forall P (firstn n l).
Proof.
  intros H. revert n. induction H as [|x l Hx _ IH]; intros [|n]; cbn [firstn];
    constructor; auto.
Qed.

Lemma listed_collect {O : Outside} registry w :
  let login := spawn w az_login in
  let acr := spawn (snd login) (az_acr_login registry) in
  let listing := spawn (snd acr) (az_repository_list registry) in
  let repos := repos_of (stdout (fst listing)) in
  Forall (image_of repos)
         (images_to_be_deleted_digest (vars (snd (collect registry (initial w))))).
Proof.
  intros login acr listing repos. rewrite collect_eq. cbv zeta.
  cbn [world initial]. fold login acr listing repos.
  destruct (returncode (fst login) =? 0)%Z; [|constructor].
  destruct (returncode (fst acr) =? 0)%Z; [|constructor].
  destruct (returncode (fst listing) =? 0)%Z; [|constructor].
  apply (@hoare_for_each O str
           (fun s => Forall (image_of repos) (images_to_be_deleted_digest (vars s))));
    [|constructor].
  intros repo Hrepo.
  apply (@rd_check_repository O (fun _ => True) (fun r => In r repos)); auto.
  intros repo' manifest diff Hin. unfold classify.
  destruct (ge diff 90); [|apply hoare_ret].
  apply hoare_seq; [apply hoare_getitem|]. intros digest.
  apply hoare_seq; [intros s Hs; exact Hs|].
  intros _ s Hs. cbn [modify_vars snd vars add_candidate images_to_be_deleted_digest].
  apply Forall_app. split; [exact Hs|].
  constructor; [|constructor]. exists repo', (fmt digest). now split.
Qed.

(** X11.  The candidates are images of the repositories the registry
    listed: every candidate is the name of a listed repository, an [@] and
    a digest, and every delete call of the run is for such an image, on the
    registry named on the command line. *)
Theorem candidates_come_from_listed_repositories :
  forall (O : Outside) (a : args) (w : World),
    let login := spawn w az_login in
    let acr := spawn (snd login) (az_acr_login (name a)) in
    let listing := spawn (snd acr) (az_repository_list (name a)) in
    let repos := repos_of (stdout (fst listing)) in
    let s := snd (run a w) in
    Forall (image_of repos) (images_to_be_deleted_digest (vars s)) /\
    Forall (fun argv => exists image,
                image_of repos image /\ argv = az_delete (name a) image)
           (delete_calls (history s)).
Proof.
  intros O [registry dry] w login acr listing repos s. cbn [name] in *.
  pose proof (listed_collect registry w) as Hl. cbv zeta in Hl.
  fold login acr listing repos in Hl.
  pose proof (ready_collect registry w) as [Hu _].
  subst s. destruct dry.
  - pose proof (untouched_dry_run registry w) as Hd.
    rewrite (delete_calls_none (proj1 Hd)). split; [|constructor].
    rewrite dry_run_eq. cbv zeta.
    destruct (fst (collect registry (initial w))); exact Hl.
  - rewrite live_run_eq. cbv zeta.
    destruct (fst (collect registry (initial w))) as [[]|e]; cbn [fst snd].
    + destruct (calls_finish_live registry (snd (collect registry (initial w))))
        as ((Hd & _) & _).
      destruct (delete_calls_finish_live registry Hu) as (k & Hdel & _).
      cbv zeta in Hd, Hdel. rewrite Hd, Hdel. split; [exact Hl|].
      apply Forall_map. apply Forall_firstn.
      eapply Forall_impl; [|exact Hl]. intros image Hi. now exists image.
    + rewrite (delete_calls_none (proj1 Hu)). split; [exact Hl | constructor].
Qed.

(* --------------------------------------------------------------------- *)
(** *** The last line of the log *)

Lemma delete_loop_counts {O : Outside} registry l : forall s,
  fst (for_each l (delete_image registry) s) = Ok tt ->
  deleted_images_total (vars (snd (for_each l (delete_image registry) s))) =
  deleted_images_total (vars s) + length l.
Proof.
  induction l as [|image l IH]; intros s; [intros _; cbn; lia|].
  cbn [for_each]. unfold bind. rewrite delete_image_eq. cbv zeta.
  destruct (returncode _ =? 0)%Z; [|discriminate].
  intros H. rewrite (IH _ H).
  cbn [vars count_deleted deleted_images_total record length]. lia.
Qed.

(** X12.  The log of a run that completes ends with its count: a dry run
    ends with the number of eligible images, a live run with the number of
    deleted images, and both numbers are the number of candidates
    collected. *)
Theorem completed_run_ends_with_its_count :
  forall (O : Outside) (a : args) (w : World),
    fst (run a w) = Ok tt ->
    let s := snd (run a w) in
    let n := length (images_to_be_deleted_digest (vars s)) in
    exists h,
      history s =
      h ++ [(Log (INFO (if dry_run a then MsgEligible n else MsgNumberDeleted n)),
             vars s)].
Proof.
  intros O [registry dry] w H s n. subst n s. cbn [dry_run].
  pose proof (ready_collect registry w) as [Hu Hc].
  destruct dry.
  - rewrite dry_run_eq in H |- *. cbv zeta in H |- *.
    destruct (fst (collect registry (initial w))) as [[]|e]; [|discriminate H].
    cbn [snd]. eexists. unfold record at 1. cbn [history vars prepend].
    rewrite Hc. reflexivity.
  - rewrite live_run_eq in H |- *. cbv zeta in H |- *.
    set (s0 := snd (collect registry (initial w))) in *.
    destruct (fst (collect registry (initial w))) as [[]|e]; [|discriminate H].
    rewrite finish_live_eq in H |- *. cbv zeta in H |- *.
    set (s1 := record (Log (INFO (MsgToBeDeleted
                                    (images_to_be_deleted_number (vars s0)))))
                      (world s0) s0) in *.
    change (vars s1) with (vars s0) in *.
    set (l := images_to_be_deleted_digest (vars s0)) in *.
    pose proof (@delete_loop_counts O registry l s1) as Hn.
    pose proof (delete_loop_keeps registry l s1) as [Hk _].
    set (r := for_each l (delete_image registry) s1) in *.
    destruct (fst r) as [[]|e]; [|discriminate H].
    assert (E : deleted_images_total (vars (snd r)) =
                length (images_to_be_deleted_digest (vars (snd r)))).
    { rewrite (Hn eq_refl), Hk. change (vars s1) with (vars s0).
      destruct Hu as [_ ->]. reflexivity. }
    exists (history (snd r)).
    change (history (snd r) ++
            [(Log (INFO (MsgNumberDeleted (deleted_images_total (vars (snd r))))),
              vars (snd r))] =
            history (snd r) ++
            [(Log (INFO (MsgNumberDeleted
                           (length (images_to_be_deleted_digest (vars (snd r)))))),
              vars (snd r))]).
    rewrite E. reflexivity.
Qed.

(* --------------------------------------------------------------------- *)
(** *** The outcome of a run and the return codes *)

Section Blame.
Context {O : Outside}.

(** [blamed m]: when [m] raises [AzureError], a call has failed. *)
Definition blamed {A} (m : M A) : Prop :=
  forall s text,
    fst (m s) = Raised (AzureError text) -> ~ quiet (history (snd (m s))).

Lemma blamed_ok {A} (m : M A) :
  (forall s, exists a, fst (m s) = Ok a) -> blamed m.
Proof. intros H s text E. destruct (H s) as [a Ha]. congruence. Qed.

Lemma blamed_raise {A} (e : exn) :
  (forall text, e <> AzureError text) -> blamed (@raise O A e).
Proof. intros H s text E. inversion E. now contradiction (H text). Qed.

Lemma blamed_bind {A B} (m : M A) (k : A -> M B) :
  blamed m -> (forall a, blamed (k a)) -> blamed (bind m k).
Proof.
  intros Hm Hk s text. unfold bind. specialize (Hm s text).
  destruct (m s) as [[a|e] s']; cbn [fst snd] in *; [apply Hk|].
  intros E. apply Hm. inversion E. reflexivity.
Qed.

Lemma blamed_for_each {A} (l : list A) (body : A -> M unit) :
  (forall x, blamed (body x)) -> blamed (for_each l body).
Proof.
  intros Hbody. induction l as [|x l IH]; cbn [for_each].
  - apply blamed_ok. intros s. now exists tt.
  - apply blamed_bind; [apply Hbody | intros _; apply IH].
Qed.

Lemma blamed_logging_info m : blamed (logging_info m).
Proof. apply blamed_ok. intros s. now exists tt. Qed.

Lemma blamed_getitem manifest key : blamed (getitem manifest key).
Proof.
  unfold getitem. destruct manifest; try (apply blamed_raise; discriminate).
  destruct (dict_get key members);
    [apply blamed_ok; intros s; eexists; reflexivity
    | apply blamed_raise; discriminate].
Qed.

Lemma blamed_call_then {B} argv (on_success : proc -> M unit) (k : proc -> M B) :
  (forall p, blamed (on_success p)) -> (forall p, blamed (k p)) ->
  blamed (p <- Popen argv ;; check p (on_success p) ;; k p).
Proof.
  intros Hok Hk s text. rewrite bind_Popen.
  set (p := fst (spawn (world s) argv)).
  set (s1 := record (Spawn argv p) (snd (spawn (world s) argv)) s).
  unfold check. destruct (returncode p =? 0)%Z eqn:Hrc.
  - apply (@blamed_bind _ _ (on_success p) (fun _ => k p) (Hok p) (fun _ => Hk p)).
  - cbn. intros _ Hq. unfold quiet in Hq.
    apply Forall_app in Hq. destruct Hq as [Hq _].
    apply Forall_app in Hq. destruct Hq as [_ Hq].
    inversion Hq as [|? ? Hf _]; subst. cbn in Hf. fold p in Hf.
    rewrite Hrc in Hf. discriminate.
Qed.

Lemma blamed_call argv (on_success : proc -> M unit) :
  (forall p, blamed (on_success p)) ->
  blamed (p <- Popen argv ;; check p (on_success p)).
Proof.
  intros Hok s text. rewrite bind_Popen.
  set (p := fst (spawn (world s) argv)).
  set (s1 := record (Spawn argv p) (snd (spawn (world s) argv)) s).
  unfold check. destruct (returncode p =? 0)%Z eqn:Hrc.
  - apply Hok.
  - cbn. intros _ Hq. unfold quiet in Hq.
    apply Forall_app in Hq. destruct Hq as [Hq _].
    apply Forall_app in Hq. destruct Hq as [_ Hq].
    inversion Hq as [|? ? Hf _]; subst. cbn in Hf. fold p in Hf.
    rewrite Hrc in Hf. discriminate.
Qed.

Lemma blamed_evaluate repo output : blamed (evaluate repo output).
Proof.
  unfold evaluate.
  apply blamed_bind.
  { destruct (json_loads output);
      [apply blamed_ok; intros s; eexists; reflexivity
      | apply blamed_raise; discriminate]. }
  intros manifest. apply blamed_bind; [apply blamed_getitem|].
  intros raw. apply blamed_bind.
  { destruct (to_datetime raw);
      [apply blamed_ok; intros s; eexists; reflexivity
      | apply blamed_raise; discriminate]. }
  intros parsed. apply blamed_bind.
  { apply blamed_ok; intros s; eexists; reflexivity. }
  intros now. unfold classify.
  destruct (ge _ 90); [|apply blamed_ok; intros s; eexists; reflexivity].
  apply blamed_bind; [apply blamed_getitem|].
  intros digest. apply blamed_bind; [apply blamed_logging_info|].
  intros _. apply blamed_ok; intros s; eexists; reflexivity.
Qed.

Lemma blamed_check_repository registry repo :
  blamed (check_repository registry repo).
Proof.
  unfold check_repository.
  apply (blamed_call_then (az_show_manifests registry repo)
           (fun p => logging_info (MsgPulled repo) ;;
                     logging_info (MsgTotalManifests repo
                                     (length (outputs_of (stdout p)))))).
  - intros p. apply blamed_bind; [apply blamed_logging_info|].
    intros _. apply blamed_logging_info.
  - intros p. apply blamed_for_each. intros [j output]. apply blamed_evaluate.
Qed.

Lemma blamed_collect registry : blamed (collect registry).
Proof.
  unfold collect.
  apply blamed_bind; [apply blamed_logging_info | intros _].
  apply (blamed_call_then az_login (fun _ => logging_info MsgLoggedIntoAzure));
    [intros p; apply blamed_logging_info | intros _].
  apply blamed_bind; [apply blamed_logging_info | intros _].
  apply (blamed_call_then (az_acr_login registry)
           (fun _ => logging_info (MsgLoggedIntoACR registry)));
    [intros p; apply blamed_logging_info | intros _].
  apply blamed_bind; [apply blamed_logging_info | intros _].
  apply (blamed_call_then (az_repository_list registry)
           (fun p => logging_info (MsgFetched registry) ;;
                     logging_info (MsgTotalRepos (length (repos_of (stdout p)))))).
  - intros p. apply blamed_bind; [apply blamed_logging_info|].
    intros _. apply blamed_logging_info.
  - intros p. apply blamed_bind; [apply blamed_logging_info | intros _].
    apply blamed_for_each. intros repo. apply blamed_check_repository.
Qed.

Lemma blamed_delete_image registry image : blamed (delete_image registry image).
Proof.
  unfold delete_image.
  apply blamed_bind; [apply blamed_logging_info | intros _].
  apply (blamed_call (az_delete registry image)
           (fun _ => logging_info (MsgDeleted image) ;; modify_vars count_deleted)).
  intros p. apply blamed_bind; [apply blamed_logging_info|].
  intros _. apply blamed_ok. intros s. now exists tt.
Qed.

Lemma blamed_main a : blamed (main a).
Proof.
  unfold main.
  apply blamed_bind.
  { destruct (dry_run a);
      [apply blamed_logging_info | apply blamed_ok; intros s; now exists tt]. }
  intros _. apply blamed_bind; [apply blamed_collect | intros _].
  unfold finish.
  apply blamed_bind; [apply blamed_ok; intros s; eexists; reflexivity | intros v].
  destruct (dry_run a); [apply blamed_logging_info|].
  apply blamed_bind; [apply blamed_logging_info | intros _].
  unfold delete_all.
  apply blamed_bind; [apply blamed_ok; intros s; eexists; reflexivity | intros v0].
  apply blamed_bind.
  { apply blamed_for_each. intros image. apply blamed_delete_image. }
  intros _.
  apply blamed_bind; [apply blamed_ok; intros s; eexists; reflexivity | intros v1].
  apply blamed_logging_info.
Qed.

End Blame.


(* ===================================================================== *)
(** ** These properties at work on concrete registries *)
(* ===================================================================== *)

(** An old manifest without digest, and a recent one. *)
Definition undigested : json :=
  JObj [(lit "timestamp", JStr (lit "2026-01-01T10:00:00Z"))].

Definition undigested_recent : json :=
  JObj [(lit "timestamp", JStr (lit "2026-10-25T08:30:00Z"))].

(** A repository with an old image, followed by one without manifests. *)
Definition broken : Ref.machine :=
  {| Ref.replies := [Ref.success []; Ref.success [];
                     Ref.success (lines newline [app; lit "empty"]);
                     Ref.success (listing [image_a]);
                     Ref.success (listing [])];
     Ref.instant := noon |}.

(** The empty text, an array, an object without timestamp and a timestamp
    that is no date. *)
Lemma unreadable_manifest_raises_at_once_witness :
  let s := @initial utc borderline in
  @evaluate utc app [] s = (Raised JSONDecodeError, s) /\
  @evaluate utc app (lit "[]") s = (Raised TypeError, s) /\
  @evaluate utc app (lit "{}") s = (Raised (KeyError (lit "timestamp")), s) /\
  @evaluate utc app (dumps (JObj [(lit "timestamp", JStr (lit "soon"))])) s =
    (Raised DatetimeError, s).
Proof.
  intros s. split; [|split; [|split]].
  - apply (proj1 (@unreadable_manifest_raises_at_once utc app [] s)).
    vm_compute; reflexivity.
  - apply (proj1 (proj2 (@unreadable_manifest_raises_at_once utc app (lit "[]") s))
             (JArr [])).
    + vm_compute; reflexivity.
    + intros members; discriminate.
  - apply (proj1 (proj2 (proj2
             (@unreadable_manifest_raises_at_once utc app (lit "{}") s))) []);
      vm_compute; reflexivity.
  - apply (proj2 (proj2 (proj2
             (@unreadable_manifest_raises_at_once utc app
                (dumps (JObj [(lit "timestamp", JStr (lit "soon"))])) s)))
             [(lit "timestamp", JStr (lit "soon"))] (JStr (lit "soon")));
      vm_compute; reflexivity.
Defined.


(** Without digest, the recent manifest is passed over and the old one
    raises. *)
Lemma digest_is_read_for_old_manifests_only_witness :
  let s := @initial utc borderline in
  let s1 := @record utc (Now noon) borderline s in
  @evaluate utc app (dumps undigested_recent) s = (Ok tt, s1) /\
  @evaluate utc app (dumps undigested) s = (Raised (KeyError (lit "digest")), s1).
Proof.
  intros s s1. split.
  - apply (proj1 (@digest_is_read_for_old_manifests_only utc app
                    (dumps undigested_recent) s
                    [(lit "timestamp", JStr (lit "2026-10-25T08:30:00Z"))]
                    (JStr (lit "2026-10-25T08:30:00Z"))
                    (Stamp 1792917000000000000 (Some 0%Z))
                    ltac:(vm_compute; reflexivity) ltac:(vm_compute; reflexivity)
                    ltac:(vm_compute; reflexivity))).
    right. vm_compute; reflexivity.
  - apply (proj2 (@digest_is_read_for_old_manifests_only utc app
                    (dumps undigested) s
                    [(lit "timestamp", JStr (lit "2026-01-01T10:00:00Z"))]
                    (JStr (lit "2026-01-01T10:00:00Z"))
                    (Stamp 1767261600000000000 (Some 0%Z))
                    ltac:(vm_compute; reflexivity) ltac:(vm_compute; reflexivity)
                    ltac:(vm_compute; reflexivity)));
      vm_compute; reflexivity.
Defined.


(** The scenario: the live run deletes what the dry run found. *)
Lemma dry_run_predicts_live_run_witness :
  fst (@run utc dry (scenario (Ref.success []))) = Ok tt /\
  delete_calls (history (snd (@run utc live (scenario (Ref.success []))))) =
    map (az_delete registry)
        (images_to_be_deleted_digest
           (vars (snd (@run utc dry (scenario (Ref.success [])))))).
Proof.
  destruct (@dry_run_predicts_live_run utc registry (scenario (Ref.success [])))
    as (_ & _ & _ & H & _).
  exact (H ltac:(vm_compute; reflexivity)).
Defined.

(** The five calls of the scenario, live. *)
Lemma calls_follow_the_plan_witness :
  calls (history (snd (@run utc live (scenario (Ref.success []))))) =
    [az_login; az_acr_login registry; az_repository_list registry;
     az_show_manifests registry app; az_delete registry (lit "app@sha256:a")].
Proof.
  etransitivity.
  - exact (proj2 (@calls_follow_the_plan utc live (scenario (Ref.success [])))
             ltac:(vm_compute; reflexivity)).
  - vm_compute; reflexivity.
Defined.

(** The last line of the scenario, live: one image deleted. *)
Lemma completed_run_ends_with_its_count_witness :
  exists h,
    history (snd (@run utc live (scenario (Ref.success [])))) =
    h ++ [(Log (INFO (MsgNumberDeleted 1)),
           vars (snd (@run utc live (scenario (Ref.success [])))))].
Proof.
  destruct (@completed_run_ends_with_its_count utc live (scenario (Ref.success []))
              ltac:(vm_compute; reflexivity)) as [h Hh].
  exists h. etransitivity; [exact Hh|]. f_equal.
Defined.

